(** * Differentiable discrete distributions: forward samplers and surrogate gradients

    Shallow embedding of [agent_torch/core/distributions/distributions.py].

    Conventions of the embedding.
    - A tensor is the flat list of its elements; the elements are real
      numbers, so the arithmetic of the operators is the exact one (rounding,
      infinities and NaN of the machine formats are outside the model).
      Division and logarithm are the total functions of the real library:
      [x / 0] is [0] and [ln x] is [0] for [x <= 0], where the machine yields
      an infinity or NaN.
      Tensors of rank 0 and rank 1 are covered, a Python number being a
      one-element tensor when it meets a tensor in an operation.
    - Operations that the interpreter or the tensor engine rejects raise:
      unpacking the saved tensors of a context on which nothing was saved is
      a [ValueError], operands that do not broadcast are a [RuntimeError], an
      index out of range is an [IndexError].
    - The random generator of the engine is a stream of uniform draws; a
      forward pass reads its draws from the stream it is given. *)

From Stdlib Require Import Reals Lra Lia ZArith.
From stdpp Require Import base option list.

Local Open Scope R_scope.

(** ** Exceptions and fallible computations *)

Inductive exn : Type :=
| ValueError
| RuntimeError
| IndexError.

Inductive res (A : Type) : Type :=
| Ok (a : A)
| Raise (e : exn).

Arguments Ok {A} a.
Arguments Raise {A} e.

#[global] Instance res_ret : MRet res := λ A a, Ok a.

#[global] Instance res_bind : MBind res := λ A B k m,
  match m with
  | Ok a => k a
  | Raise e => Raise e
  end.

(** ** Tensors and the primitives of the tensor engine *)

Abbreviation tensor := (list R).

(** The generator: the [k]-th uniform draw of the current call. *)
Definition Generator : Type := nat → R.

Module torch.

(** Shape of the result of an elementwise operation on two operands of
    [n] and [m] elements: equal sizes, or one operand of a single element. *)
Definition broadcast_shapes (n m : nat) : res nat :=
  if decide (n = m) then Ok n
  else if decide (n = 1%nat) then Ok m
  else if decide (m = 1%nat) then Ok n
  else Raise RuntimeError.

Definition expand {A : Type} (n : nat) (t : list A) : list A :=
  match t with
  | [x] => replicate n x
  | _ => t
  end.

Definition pointwise {A B C : Type} (f : A → B → C)
    (a : list A) (b : list B) : res (list C) :=
  n ← broadcast_shapes (length a) (length b);
  Ok (zip_with f (expand n a) (expand n b)).

(** A Python number used as an operand. *)
Definition scalar (x : R) : tensor := [x].

Definition add : tensor → tensor → res tensor := pointwise Rplus.
Definition sub : tensor → tensor → res tensor := pointwise Rminus.
Definition mul : tensor → tensor → res tensor := pointwise Rmult.
Definition div : tensor → tensor → res tensor := pointwise Rdiv.

(** [c op t] and [t op c] for a Python number [c]: always defined. *)
Definition rsub (c : R) (t : tensor) : tensor := (λ x, c - x) <$> t.
Definition sub_scalar (t : tensor) (c : R) : tensor := (λ x, x - c) <$> t.
Definition rdiv (c : R) (t : tensor) : tensor := (λ x, c / x) <$> t.
Definition div_scalar (t : tensor) (c : R) : tensor := (λ x, x / c) <$> t.

Definition Rgtb (x y : R) : bool := if Rlt_dec y x then true else false.
Definition Rltb (x y : R) : bool := if Rlt_dec x y then true else false.
Definition Reqb (x y : R) : bool := if Req_dec_T x y then true else false.

Definition eq_scalar (t : tensor) (c : R) : list bool := (λ x, Reqb x c) <$> t.
Definition gt_scalar (t : tensor) (c : R) : list bool := (λ x, Rgtb x c) <$> t.
Definition lt : tensor → tensor → res (list bool) := pointwise Rltb.

Definition choose (c : bool) (x y : R) : R := if c then x else y.

(** [torch.where(condition, input, other)]: the three operands broadcast
    together. *)
Definition where_ (condition : list bool) (input other : tensor) : res tensor :=
  ci ← pointwise pair condition input;
  pointwise (λ (cx : bool * R) (y : R), choose cx.1 cx.2 y) ci other.

Definition ones (shape : nat) : tensor := replicate shape 1.
Definition zeros_like (t : tensor) : tensor := replicate (length t) 0.

(** [torch.clamp(t, min, max)] is [min(max(x, min), max)] elementwise. *)
Definition clamp (t : tensor) (min max : R) : tensor :=
  (λ x, Rmin (Rmax x min) max) <$> t.

Definition log (t : tensor) : tensor := ln <$> t.
Definition ceil (t : tensor) : tensor := (λ x, IZR (Zceil x)) <$> t.

(** [torch.rand(shape)]: the first [shape] draws of the generator. *)
Definition rand (gen : Generator) (shape : nat) : tensor := gen <$> seq 0 shape.

(** [torch.bernoulli(p)]: element [k] is 1 when the [k]-th uniform draw falls
    below [p_k], which has probability [p_k], and 0 otherwise. *)
Definition bernoulli (gen : Generator) (p : tensor) : tensor :=
  imap (λ k pk, if Rlt_dec (gen k) pk then 1 else 0) p.

Fixpoint cumsum_from (acc : R) (t : tensor) : tensor :=
  match t with
  | [] => []
  | x :: t' => (acc + x) :: cumsum_from (acc + x) t'
  end.

(** [torch.cumsum(t, dim=0)] *)
Definition cumsum (t : tensor) : tensor := cumsum_from 0 t.

Definition sum (t : tensor) : R := foldr Rplus 0 t.

(** [torch.searchsorted(sorted_sequence, v)] with the default [right=False]:
    the first position whose entry is not below [v], the length when there is
    none. *)
Fixpoint searchsorted (sorted_sequence : tensor) (v : R) : nat :=
  match sorted_sequence with
  | [] => 0%nat
  | x :: rest => if Rlt_dec x v then S (searchsorted rest v) else 0%nat
  end.

End torch.

(** ** Python indexing of a one-dimensional tensor by an integer *)

Module py.

(** Position designated by index [i] in a sequence of [n] elements; negative
    indices count from the end. *)
Definition position (n : nat) (i : Z) : res nat :=
  if decide (0 ≤ i < Z.of_nat n)%Z then Ok (Z.to_nat i)
  else if decide (- Z.of_nat n ≤ i < 0)%Z then Ok (Z.to_nat (Z.of_nat n + i))
  else Raise IndexError.

(** [t[i]] *)
Definition getitem (t : tensor) (i : Z) : res R :=
  k ← position (length t) i;
  match t !! k with
  | Some x => Ok x
  | None => Raise IndexError
  end.

(** [t[i] = v] *)
Definition setitem (t : tensor) (i : Z) (v : R) : res tensor :=
  k ← position (length t) i;
  Ok (<[k := v]> t).

(** [t[:i]] *)
Definition slice_to (t : tensor) (i : Z) : tensor :=
  if decide (0 ≤ i)%Z then take (Z.to_nat i) t
  else take (Z.to_nat (Z.of_nat (length t) + i)) t.

End py.

(** ** The context threaded from forward to backward *)

Record FunctionCtx (S : Type) : Type := mkCtx {
  saved_tensors : option S
}.

Arguments mkCtx {S} saved_tensors.
Arguments saved_tensors {S} ctx : rename.

(** A context on which nothing has been saved yet. *)
Definition fresh_ctx {S : Type} : FunctionCtx S := mkCtx None.

Definition save_for_backward {S : Type} (ctx : FunctionCtx S) (ts : S) : FunctionCtx S :=
  mkCtx (Some ts).

(** [a, b, ... = ctx.saved_tensors] *)
Definition unpack {S : Type} (ctx : FunctionCtx S) : res S :=
  match saved_tensors ctx with
  | Some ts => Ok ts
  | None => Raise ValueError
  end.

(** ** The operators *)

Module StraightThroughBernoulli.

Definition forward (gen : Generator) (ctx : FunctionCtx (tensor * tensor))
    (p : tensor) : FunctionCtx (tensor * tensor) * tensor :=
  let result := torch.bernoulli gen p in
  let ctx := save_for_backward ctx (result, p) in
  (ctx, result).

Definition backward (ctx : FunctionCtx (tensor * tensor))
    (grad_output : tensor) : res tensor :=
  '(result, p) ← unpack ctx;
  let ws := torch.ones (length result) in
  torch.mul grad_output ws.

End StraightThroughBernoulli.

Module Bernoulli.

Definition forward (gen : Generator) (ctx : FunctionCtx (tensor * tensor))
    (p : tensor) : FunctionCtx (tensor * tensor) * tensor :=
  let result := torch.bernoulli gen p in
  let ctx := save_for_backward ctx (result, p) in
  (ctx, result).

Definition backward (ctx : FunctionCtx (tensor * tensor))
    (grad_output : tensor) : res tensor :=
  '(result, p) ← unpack ctx;
  let w_minus := torch.div_scalar (torch.rdiv 1 p) 2 in
  let w_plus := torch.div_scalar (torch.rdiv 1 (torch.rsub 1 p)) 2 in
  ws ← torch.where_ (torch.eq_scalar result 1) w_minus w_plus;
  torch.mul grad_output ws.

End Bernoulli.

Module Binomial.

(** [sample] stands for the value that
    [torch.distributions.binomial.Binomial(n, p).sample()] returns at this
    call. *)
Definition forward (sample : tensor) (ctx : FunctionCtx (tensor * tensor * tensor))
    (n p : tensor) : FunctionCtx (tensor * tensor * tensor) * tensor :=
  let result := sample in
  let ctx := save_for_backward ctx (result, p, n) in
  (ctx, result).

(** The two jump contributions and their half-sum. *)
Definition weights (result p n : tensor) : res tensor :=
  w_minus ← torch.div result p;
  n_minus_result ← torch.sub n result;
  w_plus ← torch.div n_minus_result (torch.rsub 1 p);
  wminus_cont ← torch.where_ (torch.gt_scalar result 0) w_minus (torch.scalar 0);
  below_n ← torch.lt result n;
  wplus_cont ← torch.where_ below_n w_plus (torch.scalar 0);
  total ← torch.add wminus_cont wplus_cont;
  Ok (torch.div_scalar total 2).

(** The pair returned is (gradient for [n], gradient for [p]); [None] is
    Python's [None]. *)
Definition backward (ctx : FunctionCtx (tensor * tensor * tensor))
    (grad_output : tensor) : res (option tensor * tensor) :=
  '(result, p, n) ← unpack ctx;
  ws ← weights result p n;
  g ← torch.mul grad_output ws;
  Ok (None, g).

End Binomial.

Module Geometric.

Definition clamp_min : R := 1e-5.
Definition clamp_max : R := 1 - 1e-5.

Definition forward (gen : Generator) (ctx : FunctionCtx (tensor * tensor))
    (p : tensor) : res (FunctionCtx (tensor * tensor) * tensor) :=
  let p := torch.clamp p clamp_min clamp_max in
  let u := torch.rand gen (length p) in
  ratio ← torch.div (torch.log (torch.rsub 1 u)) (torch.log (torch.rsub 1 p));
  let result := torch.ceil ratio in
  let ctx := save_for_backward ctx (result, p) in
  Ok (ctx, result).

Definition w_plus (p : tensor) : tensor := torch.rdiv 1 p.

Definition w_minus (result p : tensor) : res tensor :=
  torch.div (torch.sub_scalar result 1) (torch.rsub 1 p).

Definition w_plus_cont (result p : tensor) : res tensor :=
  torch.where_ (torch.gt_scalar result 0) (w_plus p) (torch.zeros_like (w_plus p)).

Definition w_minus_cont (result p : tensor) : res tensor :=
  wm ← w_minus result p;
  torch.where_ (torch.gt_scalar result 1) wm (torch.zeros_like wm).

Definition backward (ctx : FunctionCtx (tensor * tensor))
    (grad_output : tensor) : res tensor :=
  '(result, p) ← unpack ctx;
  w_plus_cont ← w_plus_cont result p;
  w_minus_cont ← w_minus_cont result p;
  total ← torch.add w_plus_cont w_minus_cont;
  let ws := torch.div_scalar total 2 in
  torch.mul grad_output ws.

End Geometric.

Module StochasticCategorical.

(** The single draw [torch.rand(1)] is the first draw of the generator.  The
    context holds [probs] and the integer tensor of the sampled index; the
    value returned is the index as a float scalar. *)
Definition forward (gen : Generator) (ctx : FunctionCtx (tensor * Z))
    (probs : tensor) : FunctionCtx (tensor * Z) * R :=
  let cum_probs := torch.cumsum probs in
  let u := gen 0%nat in
  let idx := torch.searchsorted cum_probs u in
  let idx_int := Z.of_nat idx in
  let ctx := save_for_backward ctx (probs, idx_int) in
  (ctx, IZR idx_int).

(** [grad_output] is the scalar gradient of the scalar output. *)
Definition backward (ctx : FunctionCtx (tensor * Z)) (grad_output : R) : res tensor :=
  '(probs, idx_tensor) ← unpack ctx;
  let i := idx_tensor in
  let grad_probs := torch.zeros_like probs in
  if decide (i = 0%Z) then Ok grad_probs
  else
    let F_lower := torch.sum (py.slice_to probs i) in
    probs_i ← py.getitem probs i;
    let w := F_lower / probs_i in
    py.setitem grad_probs i (grad_output * - w).

End StochasticCategorical.

(** ** Vocabulary of the statements *)

(** The statement that a vector has one non-zero entry, the one at position
    [k], with value [v]. *)
Definition one_nonzero_entry_at (out : tensor) (k : nat) (v : R) : Prop :=
  out !! k = Some v ∧ v ≠ 0 ∧
  ∀ (j : nat) (x : R), j ≠ k → out !! j = Some x → x = 0.

(** The value that the Geometric forward pass computes at one position, from
    the draw [u] and the clamped parameter [q]. *)
Definition inverse_cdf (u q : R) : R := IZR (Zceil (ln (1 - u) / ln (1 - q))).

(** The probability that a Binomial variable of [n] trials and success
    probability [p] takes the value [s]. *)
Definition Binomial_pmf (n : nat) (p : R) (s : nat) : R :=
  C n s * p ^ s * (1 - p) ^ (n - s).

(** * Properties *)

(** ** Proof steps shared by the operators *)

(** Reading one position of an elementwise result. *)
Ltac lookup_elementwise :=
  repeat first
    [ rewrite lookup_zip_with
    | rewrite list_lookup_fmap
    | match goal with
      | H : ?l !! ?i = Some _ |- context [?l !! ?i] => rewrite H
      end
    | progress simpl ].

Ltac unfold_elementwise :=
  unfold torch.add, torch.sub, torch.mul, torch.div, torch.lt,
    torch.eq_scalar, torch.gt_scalar, torch.div_scalar, torch.sub_scalar,
    torch.rdiv, torch.rsub, torch.zeros_like, torch.ones.

Ltac solve_lengths :=
  unfold_elementwise;
  repeat first [ rewrite length_zip_with | rewrite length_fmap
               | rewrite length_replicate ];
  lia.

(** ** The tensor primitives on operands of matching sizes *)

Section Primitives.

Context {A B C : Type}.
Implicit Types (f : A → B → C) (a : list A) (b : list B).

Lemma bind_Ok {X Y : Type} (x : X) (k : X → res Y) : (Ok x ≫= k) = k x.
Proof. reflexivity. Qed.

Lemma broadcast_shapes_same (n : nat) : torch.broadcast_shapes n n = Ok n.
Proof. unfold torch.broadcast_shapes. by rewrite decide_True. Qed.

Lemma expand_same {X : Type} (t : list X) : torch.expand (length t) t = t.
Proof. by destruct t as [|x [|y t]]. Qed.

Lemma pointwise_same_length f a b :
  length a = length b → torch.pointwise f a b = Ok (zip_with f a b).
Proof.
  intros Hlen. unfold torch.pointwise.
  rewrite <- Hlen, broadcast_shapes_same, bind_Ok.
  rewrite expand_same, Hlen, expand_same. reflexivity.
Qed.

Lemma zip_with_replicate_r f a (y : B) :
  zip_with f a (replicate (length a) y) = (λ x, f x y) <$> a.
Proof. induction a as [|x a IH]; simpl; [done | by rewrite IH]. Qed.

(** The right operand is a Python number: it is applied to every element. *)
Lemma pointwise_scalar_r f a (y : B) :
  torch.pointwise f a [y] = Ok ((λ x, f x y) <$> a).
Proof.
  unfold torch.pointwise, torch.broadcast_shapes. simpl length.
  destruct (decide (length a = 1%nat)) as [H1|H1].
  - destruct a as [|x [|x' a]]; try discriminate. reflexivity.
  - rewrite decide_True by done. rewrite bind_Ok.
    replace (torch.expand (length a) a) with a.
    + simpl. by rewrite zip_with_replicate_r.
    + by destruct a as [|x [|x' a]].
Qed.

End Primitives.

Lemma where_same_length (c : list bool) (x y : tensor) :
  length c = length x → length x = length y →
  torch.where_ c x y
  = Ok (zip_with (λ cx y, torch.choose cx.1 cx.2 y) (zip_with pair c x) y).
Proof.
  intros Hcx Hxy. unfold torch.where_.
  rewrite (pointwise_same_length _ c x Hcx), bind_Ok.
  rewrite pointwise_same_length; [done|].
  rewrite length_zip_with. lia.
Qed.

Lemma where_scalar_other (c : list bool) (x : tensor) (y : R) :
  length c = length x →
  torch.where_ c x (torch.scalar y)
  = Ok ((λ cx : bool * R, torch.choose cx.1 cx.2 y) <$> zip_with pair c x).
Proof.
  intros Hcx. unfold torch.where_, torch.scalar.
  rewrite (pointwise_same_length _ c x Hcx), bind_Ok.
  by rewrite pointwise_scalar_r.
Qed.

Lemma unpack_saved {S : Type} (ctx : FunctionCtx S) (ts : S) :
  saved_tensors ctx = Some ts → unpack ctx = Ok ts.
Proof. intros H. unfold unpack. by rewrite H. Qed.

Lemma Reqb_true (x : R) : torch.Reqb x x = true.
Proof. unfold torch.Reqb. by destruct (Req_dec_T x x). Qed.

Lemma Reqb_false (x y : R) : x ≠ y → torch.Reqb x y = false.
Proof. intros H. unfold torch.Reqb. by destruct (Req_dec_T x y). Qed.

Lemma Rgtb_true (x y : R) : y < x → torch.Rgtb x y = true.
Proof. intros H. unfold torch.Rgtb. by destruct (Rlt_dec y x). Qed.

Lemma Rgtb_false (x y : R) : x <= y → torch.Rgtb x y = false.
Proof. intros H. unfold torch.Rgtb. destruct (Rlt_dec y x); [lra | done]. Qed.

Lemma Rltb_true (x y : R) : x < y → torch.Rltb x y = true.
Proof. intros H. unfold torch.Rltb. by destruct (Rlt_dec x y). Qed.

Lemma Rltb_false (x y : R) : y <= x → torch.Rltb x y = false.
Proof. intros H. unfold torch.Rltb. destruct (Rlt_dec x y); [lra | done]. Qed.

(** ** Straight-Through Bernoulli *)

Lemma zip_with_mul_ones (g : tensor) :
  zip_with Rmult g (torch.ones (length g)) = g.
Proof.
  unfold torch.ones. rewrite zip_with_replicate_r.
  induction g as [|x g IH]; [done|].
  rewrite fmap_cons, IH. f_equal. lra.
Qed.

(** C7: the straight-through backward pass returns the upstream gradient
    unchanged, whatever parameter and sample were saved, as soon as the
    gradient has the shape of the sample. *)
Theorem StraightThroughBernoulli_backward_identity
    (ctx : FunctionCtx (tensor * tensor)) (result p g : tensor) :
  saved_tensors ctx = Some (result, p) →
  length g = length result →
  StraightThroughBernoulli.backward ctx g = Ok g.
Proof.
  intros Hctx Hlen. unfold StraightThroughBernoulli.backward.
  rewrite (unpack_saved _ _ Hctx), bind_Ok.
  unfold torch.mul. rewrite pointwise_same_length.
  - rewrite <- Hlen. by rewrite zip_with_mul_ones.
  - unfold torch.ones. by rewrite length_replicate.
Qed.

Lemma StraightThroughBernoulli_backward_identity_witness :
  StraightThroughBernoulli.backward (mkCtx (Some ([1; 0], [0.3; 0.8]))) [2; -5]
  = Ok [2; -5].
Proof.
  apply (StraightThroughBernoulli_backward_identity _ [1; 0] [0.3; 0.8]);
    reflexivity.
Defined.

(** ** Weighted-Jump Bernoulli *)

Lemma half_inverse (g p : R) : g * (1 / p / 2) = g / (2 * p).
Proof. unfold Rdiv. rewrite Rinv_mult. ring. Qed.

(** C1: with a sample, a parameter and an upstream gradient of one shape, the
    weighted-jump backward pass returns [g / (2p)] where the sample is 1 and
    [g / (2(1-p))] where the sample is 0 (and at every other sample value). *)
Theorem Bernoulli_backward_weighted_jump
    (ctx : FunctionCtx (tensor * tensor)) (result p g : tensor) :
  saved_tensors ctx = Some (result, p) →
  length result = length p →
  length g = length p →
  ∃ out : tensor,
    Bernoulli.backward ctx g = Ok out ∧
    length out = length p ∧
    ∀ (i : nat) (r pi gi : R),
      result !! i = Some r → p !! i = Some pi → g !! i = Some gi →
      (r = 1 → out !! i = Some (gi / (2 * pi))) ∧
      (r ≠ 1 → out !! i = Some (gi / (2 * (1 - pi)))) ∧
      (r = 0 → out !! i = Some (gi / (2 * (1 - pi)))).
Proof.
  intros Hctx Hres Hg. unfold Bernoulli.backward.
  rewrite (unpack_saved _ _ Hctx), bind_Ok.
  rewrite where_same_length, bind_Ok; cycle 1.
  { unfold torch.eq_scalar, torch.div_scalar, torch.rdiv.
    by rewrite !length_fmap. }
  { unfold torch.div_scalar, torch.rdiv, torch.rsub. by rewrite !length_fmap. }
  unfold torch.mul. rewrite pointwise_same_length; cycle 1.
  { unfold torch.eq_scalar, torch.div_scalar, torch.rdiv, torch.rsub.
    rewrite !length_zip_with, !length_fmap. lia. }
  eexists. split; [reflexivity|]. split.
  { unfold torch.eq_scalar, torch.div_scalar, torch.rdiv, torch.rsub.
    rewrite !length_zip_with, !length_fmap. lia. }
  intros i r pi gi Hr Hp Hgi.
  unfold torch.eq_scalar, torch.div_scalar, torch.rdiv, torch.rsub.
  lookup_elementwise.
  assert (Hne : r ≠ 1 → Some (gi * torch.choose (torch.Reqb r 1) (1 / pi / 2) (1 / (1 - pi) / 2))
                        = Some (gi / (2 * (1 - pi)))).
  { intros Hr1. rewrite Reqb_false by done. simpl. by rewrite half_inverse. }
  split; [|split].
  - intros ->. rewrite Reqb_true. simpl. by rewrite half_inverse.
  - exact Hne.
  - intros ->. apply Hne. lra.
Qed.

Lemma Bernoulli_backward_weighted_jump_witness :
  Bernoulli.backward (mkCtx (Some ([1], [0.3]))) [1] = Ok [1 / 0.6].
Proof.
  destruct (Bernoulli_backward_weighted_jump
              (mkCtx (Some ([1], [0.3]))) [1] [0.3] [1]
              eq_refl eq_refl eq_refl) as (out & -> & Hlen & Hout).
  destruct (Hout 0%nat 1 0.3 1 eq_refl eq_refl eq_refl) as (H1 & _).
  specialize (H1 eq_refl).
  destruct out as [|x [|y out]]; try discriminate.
  simpl in H1. injection H1 as ->. do 2 f_equal. lra.
Defined.

(** ** Binomial *)

(** The weight of the Binomial estimator at one position, following the
    source: each contribution is kept under its guard and replaced by 0
    otherwise. *)
Lemma Binomial_weights_same_shape (result p n : tensor) :
  length result = length p →
  length n = length p →
  ∃ ws : tensor,
    Binomial.weights result p n = Ok ws ∧
    length ws = length p ∧
    ∀ (i : nat) (s pi ni : R),
      result !! i = Some s → p !! i = Some pi → n !! i = Some ni →
      ws !! i = Some (((if Rlt_dec 0 s then s / pi else 0)
                       + (if Rlt_dec s ni then (ni - s) / (1 - pi) else 0)) / 2).
Proof.
  intros Hres Hn. unfold Binomial.weights.
  unfold torch.div, torch.sub, torch.lt, torch.add.
  rewrite (pointwise_same_length Rdiv result p), bind_Ok by done.
  rewrite (pointwise_same_length Rminus n result), bind_Ok by lia.
  rewrite (pointwise_same_length Rdiv), bind_Ok by solve_lengths.
  rewrite where_scalar_other, bind_Ok by solve_lengths.
  rewrite (pointwise_same_length torch.Rltb), bind_Ok by lia.
  rewrite where_scalar_other, bind_Ok by solve_lengths.
  rewrite (pointwise_same_length Rplus), bind_Ok by solve_lengths.
  eexists. split; [reflexivity|]. split; [solve_lengths|].
  intros i s pi ni Hs Hp Hni.
  unfold_elementwise. lookup_elementwise.
  unfold torch.Rgtb, torch.Rltb.
  by destruct (Rlt_dec 0 s), (Rlt_dec s ni).
Qed.

(** C2: the Binomial backward pass returns no gradient for [n] and, for [p],
    the upstream gradient times the half-sum of the downward contribution
    [sample / p] (kept when [sample > 0]) and the upward contribution
    [(n - sample) / (1 - p)] (kept when [sample < n]). *)
Theorem Binomial_backward_half_sum
    (ctx : FunctionCtx (tensor * tensor * tensor)) (result p n g : tensor) :
  saved_tensors ctx = Some (result, p, n) →
  length result = length p →
  length n = length p →
  length g = length p →
  ∃ out : tensor,
    Binomial.backward ctx g = Ok (None, out) ∧
    length out = length p ∧
    ∀ (i : nat) (s pi ni gi : R),
      result !! i = Some s → p !! i = Some pi → n !! i = Some ni →
      g !! i = Some gi →
      out !! i = Some (gi * (((if Rlt_dec 0 s then s / pi else 0)
                              + (if Rlt_dec s ni then (ni - s) / (1 - pi) else 0))
                             / 2)).
Proof.
  intros Hctx Hres Hn Hg. unfold Binomial.backward.
  rewrite (unpack_saved _ _ Hctx), bind_Ok.
  destruct (Binomial_weights_same_shape result p n Hres Hn)
    as (ws & -> & Hlen & Hws).
  rewrite bind_Ok. unfold torch.mul.
  rewrite pointwise_same_length, bind_Ok by lia.
  eexists. split; [reflexivity|]. split; [solve_lengths|].
  intros i s pi ni gi Hs Hp Hni Hgi.
  rewrite lookup_zip_with, Hgi, (Hws i s pi ni Hs Hp Hni). reflexivity.
Qed.

Lemma Binomial_backward_half_sum_witness :
  Binomial.backward (mkCtx (Some ([2], [0.4], [5]))) [1] = Ok (None, [5]).
Proof.
  destruct (Binomial_backward_half_sum
              (mkCtx (Some ([2], [0.4], [5]))) [2] [0.4] [5] [1]
              eq_refl eq_refl eq_refl eq_refl) as (out & -> & Hlen & Hout).
  specialize (Hout 0%nat 2 0.4 5 1 eq_refl eq_refl eq_refl eq_refl).
  destruct out as [|x [|y out]]; try discriminate.
  simpl in Hout. injection Hout as ->. do 3 f_equal.
  destruct (Rlt_dec 0 2); [|lra]. destruct (Rlt_dec 2 5); lra.
Defined.

(** ** Categorical: backward *)

Lemma position_in_range (n k : nat) :
  (k < n)%nat → py.position n (Z.of_nat k) = Ok k.
Proof.
  intros Hk. unfold py.position.
  rewrite decide_True by lia. by rewrite Nat2Z.id.
Qed.

Lemma slice_to_nat (t : tensor) (k : nat) :
  py.slice_to t (Z.of_nat k) = take k t.
Proof.
  unfold py.slice_to. rewrite decide_True by lia. by rewrite Nat2Z.id.
Qed.

(** At a sampled index other than 0 the backward pass writes
    [grad_output * (-w)] into a vector of zeros, at the sampled index. *)
Lemma Categorical_backward_writes_entry
    (ctx : FunctionCtx (tensor * Z)) (probs : tensor) (k : nat) (pk g : R) :
  saved_tensors ctx = Some (probs, Z.of_nat k) →
  k ≠ 0%nat →
  probs !! k = Some pk →
  StochasticCategorical.backward ctx g
  = Ok (<[k := g * - (torch.sum (take k probs) / pk)]>
          (replicate (length probs) 0)).
Proof.
  intros Hctx Hk Hpk. unfold StochasticCategorical.backward.
  rewrite (unpack_saved _ _ Hctx), bind_Ok.
  rewrite decide_False by lia.
  pose proof (lookup_lt_Some _ _ _ Hpk) as Hlt.
  unfold py.getitem, py.setitem, torch.zeros_like.
  rewrite length_replicate.
  rewrite !(position_in_range (length probs) k Hlt), bind_Ok.
  by rewrite Hpk, !bind_Ok, slice_to_nat.
Qed.

(** C3, as the code has it: at sampled index 0 the gradient is the zero
    vector of the length of [probs]; at a sampled index [k] other than 0 (and
    within [probs]) every entry but the one at [k] is exactly zero, and the
    entry at [k] is [-g * F_lower / probs[k]] with [F_lower] the sum of
    [probs[0:k]].  That entry is itself zero when [g] or [F_lower] is: for a
    non-zero [probs[k]] it is non-zero exactly when both are non-zero. *)
Theorem Categorical_backward_single_entry
    (ctx : FunctionCtx (tensor * Z)) (probs : tensor) (k : nat) (g : R) :
  saved_tensors ctx = Some (probs, Z.of_nat k) →
  (k = 0%nat →
     StochasticCategorical.backward ctx g = Ok (replicate (length probs) 0)) ∧
  (k ≠ 0%nat → ∀ pk : R, probs !! k = Some pk →
     ∃ out : tensor,
       StochasticCategorical.backward ctx g = Ok out ∧
       length out = length probs ∧
       out !! k = Some (- g * torch.sum (take k probs) / pk) ∧
       (∀ j : nat, j ≠ k → (j < length probs)%nat → out !! j = Some 0) ∧
       (pk ≠ 0 →
          - g * torch.sum (take k probs) / pk ≠ 0
          ↔ g ≠ 0 ∧ torch.sum (take k probs) ≠ 0)).
Proof.
  intros Hctx. split.
  - intros ->. unfold StochasticCategorical.backward.
    rewrite (unpack_saved _ _ Hctx), bind_Ok. by rewrite decide_True.
  - intros Hk pk Hpk.
    pose proof (lookup_lt_Some _ _ _ Hpk) as Hlt.
    rewrite (Categorical_backward_writes_entry ctx probs k pk g Hctx Hk Hpk).
    eexists. split; [reflexivity|].
    split; [by rewrite length_insert, length_replicate|].
    split; [|split].
    + rewrite list_lookup_insert_eq by (by rewrite length_replicate).
      f_equal. unfold Rdiv. ring.
    + intros j Hj Hjlt. rewrite list_lookup_insert_ne by done.
      by apply lookup_replicate_2.
    + intros Hpk0. set (F := torch.sum (take k probs)).
      assert (Hinv : / pk ≠ 0) by (by apply Rinv_neq_0_compat).
      unfold Rdiv. split.
      * intros Hv. split; intros ->; apply Hv; ring.
      * intros [Hg HF]. repeat apply Rmult_integral_contrapositive_currified;
          try done. by apply Ropp_neq_0_compat.
Qed.

Lemma Categorical_backward_single_entry_witness :
  StochasticCategorical.backward (mkCtx (Some ([0.2; 0.3; 0.5], 2%Z))) 1
  = Ok [0; 0; -1].
Proof.
  destruct (Categorical_backward_single_entry
              (mkCtx (Some ([0.2; 0.3; 0.5], 2%Z))) [0.2; 0.3; 0.5] 2 1 eq_refl)
    as [_ H].
  destruct (H ltac:(discriminate) 0.5 eq_refl)
    as (out & -> & Hlen & H2 & H01 & _).
  pose proof (H01 0%nat ltac:(discriminate) ltac:(simpl; lia)) as H0.
  pose proof (H01 1%nat ltac:(discriminate) ltac:(simpl; lia)) as H1.
  destruct out as [|x0 [|x1 [|x2 [|x3 out]]]]; try discriminate.
  simpl in H0, H1, H2.
  injection H0 as ->. injection H1 as ->. injection H2 as ->.
  do 4 f_equal. unfold torch.sum. simpl. lra.
Defined.

(** With a zero upstream gradient the entry at the sampled index is zero as
    well: the vector returned at [probs = [0.2, 0.3, 0.5]], index 2, has no
    non-zero entry at all. *)
Lemma Categorical_backward_no_nonzero_entry :
  StochasticCategorical.backward (mkCtx (Some ([0.2; 0.3; 0.5], 2%Z))) 0
  = Ok [0; 0; 0] ∧
  ¬ ∃ (k : nat) (v : R), one_nonzero_entry_at [0; 0; 0] k v.
Proof.
  split.
  - rewrite (Categorical_backward_writes_entry
               (mkCtx (Some ([0.2; 0.3; 0.5], 2%Z))) [0.2; 0.3; 0.5] 2 0.5 0
               eq_refl ltac:(discriminate) eq_refl).
    simpl. do 4 f_equal. ring.
  - intros (k & v & Hk & Hv & _).
    destruct k as [|[|[|k]]]; simpl in Hk; try discriminate;
      injection Hk as <-; by apply Hv.
Qed.

(** ** Categorical: forward *)

Lemma length_cumsum_from (acc : R) (t : tensor) :
  length (torch.cumsum_from acc t) = length t.
Proof.
  revert acc. induction t as [|x t IH]; intros acc; simpl; [done|].
  by rewrite IH.
Qed.

(** The last cumulative sum is the sum of all the entries. *)
Lemma cumsum_from_last (acc : R) (t : tensor) :
  t ≠ [] →
  torch.cumsum_from acc t !! (length t - 1)%nat = Some (acc + torch.sum t).
Proof.
  revert acc. induction t as [|x t IH]; intros acc Hne; [done|].
  destruct t as [|y t].
  - simpl. f_equal. lra.
  - assert (Hyt : y :: t ≠ []) by done.
    specialize (IH (acc + x) Hyt).
    replace (length (x :: y :: t) - 1)%nat
      with (S (length (y :: t) - 1)) by (simpl; lia).
    change (torch.cumsum_from (acc + x) (y :: t) !! (length (y :: t) - 1)%nat
            = Some (acc + torch.sum (x :: y :: t))).
    rewrite IH. f_equal. unfold torch.sum. simpl. lra.
Qed.

(** What the search returns: every entry before it is below [v], and the
    entry it designates, when there is one, is not. *)
Lemma searchsorted_first (c : tensor) (v : R) :
  (∀ (j : nat) (x : R),
     (j < torch.searchsorted c v)%nat → c !! j = Some x → x < v) ∧
  (∀ x : R, c !! torch.searchsorted c v = Some x → v <= x) ∧
  (torch.searchsorted c v ≤ length c)%nat.
Proof.
  induction c as [|y c (IHlt & IHge & IHlen)]; simpl.
  - repeat split; [intros; lia | done | lia].
  - destruct (Rlt_dec y v) as [Hy|Hy]; repeat split.
    + intros [|j] x Hj Hx; simpl in Hx.
      * by injection Hx as <-.
      * apply (IHlt j); [lia | done].
    + intros x Hx. simpl in Hx. by apply IHge.
    + lia.
    + intros; lia.
    + intros x Hx. simpl in Hx. injection Hx as <-. lra.
    + lia.
Qed.

(** An entry that is not below [v] bounds the position found. *)
Lemma searchsorted_le_position (c : tensor) (v : R) (j : nat) (x : R) :
  c !! j = Some x → v <= x → (torch.searchsorted c v ≤ j)%nat.
Proof.
  revert j. induction c as [|y c IH]; intros j Hj Hx; [done|].
  simpl. destruct (Rlt_dec y v) as [Hy|Hy]; [|lia].
  destruct j as [|j]; simpl in Hj.
  - injection Hj as ->. lra.
  - specialize (IH j Hj Hx). lia.
Qed.

(** C6: for a non-empty [probs] summing to 1 and a uniform draw in [0,1),
    the forward pass samples a valid index into [probs]; it is the first
    position where the draw is at most the cumulative sum, it is what the
    context records, and it is the value returned. *)
Theorem Categorical_forward_index_valid
    (gen : Generator) (ctx : FunctionCtx (tensor * Z)) (probs : tensor) :
  probs ≠ [] →
  torch.sum probs = 1 →
  0 <= gen 0%nat < 1 →
  ∃ (idx : nat) (c : R),
    (idx < length probs)%nat ∧
    StochasticCategorical.forward gen ctx probs
    = (mkCtx (Some (probs, Z.of_nat idx)), INR idx) ∧
    torch.cumsum probs !! idx = Some c ∧ gen 0%nat <= c ∧
    ∀ (j : nat) (c' : R),
      (j < idx)%nat → torch.cumsum probs !! j = Some c' → c' < gen 0%nat.
Proof.
  intros Hne Hsum [Hu0 Hu1].
  set (idx := torch.searchsorted (torch.cumsum probs) (gen 0%nat)).
  destruct (searchsorted_first (torch.cumsum probs) (gen 0%nat))
    as (Hlt & Hge & _).
  assert (Hlast : torch.cumsum probs !! (length probs - 1)%nat = Some 1).
  { unfold torch.cumsum. rewrite cumsum_from_last by done.
    f_equal. lra. }
  assert (Hidx : (idx ≤ length probs - 1)%nat).
  { apply (searchsorted_le_position _ _ _ 1 Hlast). lra. }
  assert (Hlen : (0 < length probs)%nat) by (destruct probs; simpl; [done | lia]).
  assert (Hin : (idx < length (torch.cumsum probs))%nat).
  { unfold torch.cumsum. rewrite length_cumsum_from. lia. }
  destruct (lookup_lt_is_Some_2 _ _ Hin) as [c Hc].
  exists idx, c. split; [lia|]. split; [|split; [done|split]].
  - unfold StochasticCategorical.forward, save_for_backward.
    fold idx. by rewrite INR_IZR_INZ.
  - by apply Hge.
  - intros j c' Hj Hc'. by apply (Hlt j).
Qed.

Lemma Categorical_forward_index_valid_witness :
  ∃ (idx : nat) (c : R),
    (idx < 3)%nat ∧
    StochasticCategorical.forward (λ _, 0.6) fresh_ctx [0.2; 0.3; 0.5]
    = (mkCtx (Some ([0.2; 0.3; 0.5], Z.of_nat idx)), INR idx) ∧
    torch.cumsum [0.2; 0.3; 0.5] !! idx = Some c ∧ 0.6 <= c ∧
    ∀ (j : nat) (c' : R),
      (j < idx)%nat → torch.cumsum [0.2; 0.3; 0.5] !! j = Some c' → c' < 0.6.
Proof.
  apply (Categorical_forward_index_valid (λ _, 0.6) fresh_ctx [0.2; 0.3; 0.5]).
  - discriminate.
  - unfold torch.sum. simpl. lra.
  - lra.
Defined.

(** ** Geometric *)

Lemma clamp_bounds (x : R) :
  Geometric.clamp_min
  <= Rmin (Rmax x Geometric.clamp_min) Geometric.clamp_max
  <= Geometric.clamp_max.
Proof.
  unfold Geometric.clamp_min, Geometric.clamp_max, Rmin, Rmax.
  destruct (Rle_dec x 1e-5); destruct (Rle_dec _ (1 - 1e-5)); lra.
Qed.

Lemma clamp_inside (x : R) :
  Geometric.clamp_min <= x <= Geometric.clamp_max →
  Rmin (Rmax x Geometric.clamp_min) Geometric.clamp_max = x.
Proof.
  unfold Geometric.clamp_min, Geometric.clamp_max, Rmin, Rmax.
  intros [Hlo Hhi].
  destruct (Rle_dec x 1e-5); destruct (Rle_dec _ (1 - 1e-5)); lra.
Qed.

Lemma length_clamp (p : tensor) (lo hi : R) :
  length (torch.clamp p lo hi) = length p.
Proof. unfold torch.clamp. by rewrite length_fmap. Qed.

Lemma lookup_clamp (p : tensor) (i : nat) (x : R) :
  torch.clamp p Geometric.clamp_min Geometric.clamp_max !! i = Some x →
  Geometric.clamp_min <= x <= Geometric.clamp_max.
Proof.
  unfold torch.clamp. rewrite list_lookup_fmap.
  destruct (p !! i) as [y|]; simpl; [|done].
  intros [= <-]. apply clamp_bounds.
Qed.

Lemma length_rand (gen : Generator) (n : nat) : length (torch.rand gen n) = n.
Proof. unfold torch.rand. by rewrite length_fmap, length_seq. Qed.

Lemma lookup_rand (gen : Generator) (n i : nat) :
  (i < n)%nat → torch.rand gen n !! i = Some (gen i).
Proof.
  intros Hi. unfold torch.rand.
  by rewrite list_lookup_fmap, lookup_seq_lt.
Qed.

(** The forward pass never raises; it saves the sample together with the
    clamped parameter. *)
Lemma Geometric_forward_returns
    (gen : Generator) (ctx : FunctionCtx (tensor * tensor)) (p : tensor) :
  ∃ result : tensor,
    Geometric.forward gen ctx p
    = Ok (mkCtx (Some (result,
                       torch.clamp p Geometric.clamp_min Geometric.clamp_max)),
          result) ∧
    length result = length p ∧
    ∀ (i : nat) (q : R),
      torch.clamp p Geometric.clamp_min Geometric.clamp_max !! i = Some q →
      result !! i = Some (inverse_cdf (gen i) q).
Proof.
  unfold Geometric.forward, torch.div.
  rewrite pointwise_same_length, bind_Ok; cycle 1.
  { unfold torch.log, torch.rsub.
    by rewrite !length_fmap, length_rand, length_clamp. }
  eexists. split; [reflexivity|]. split.
  - unfold torch.ceil, torch.log, torch.rsub.
    by rewrite length_fmap, length_zip_with, !length_fmap, length_rand,
      length_clamp, Nat.min_id.
  - intros i q Hq.
    pose proof (lookup_lt_Some _ _ _ Hq) as Hi.
    unfold torch.ceil, torch.log, torch.rsub.
    rewrite list_lookup_fmap, lookup_zip_with, !list_lookup_fmap.
    rewrite lookup_rand by done. by rewrite Hq.
Qed.

(** The weights of the Geometric backward pass, position by position. *)
Lemma Geometric_backward_same_shape
    (ctx : FunctionCtx (tensor * tensor)) (result p g : tensor) :
  saved_tensors ctx = Some (result, p) →
  length result = length p →
  length g = length p →
  ∃ down out : tensor,
    Geometric.w_minus_cont result p = Ok down ∧
    Geometric.backward ctx g = Ok out ∧
    length out = length p ∧
    ∀ (i : nat) (s q gi : R),
      result !! i = Some s → p !! i = Some q → g !! i = Some gi →
      down !! i = Some (if Rlt_dec 1 s then (s - 1) / (1 - q) else 0) ∧
      out !! i = Some (gi * (((if Rlt_dec 0 s then 1 / q else 0)
                              + (if Rlt_dec 1 s then (s - 1) / (1 - q) else 0))
                             / 2)).
Proof.
  intros Hctx Hres Hg. unfold Geometric.backward.
  rewrite (unpack_saved _ _ Hctx), bind_Ok.
  unfold Geometric.w_plus_cont, Geometric.w_minus_cont, Geometric.w_minus,
    Geometric.w_plus, torch.div, torch.add, torch.mul.
  rewrite where_same_length, bind_Ok by solve_lengths.
  rewrite (pointwise_same_length Rdiv), !bind_Ok by solve_lengths.
  rewrite where_same_length, bind_Ok by solve_lengths.
  rewrite (pointwise_same_length Rplus), bind_Ok by solve_lengths.
  rewrite (pointwise_same_length Rmult) by solve_lengths.
  eexists _, _. split; [reflexivity|]. split; [reflexivity|].
  split; [solve_lengths|].
  intros i s q gi Hs Hq Hgi.
  assert (Hi : (i < length p)%nat) by (by eapply lookup_lt_Some).
  unfold_elementwise. lookup_elementwise.
  rewrite !lookup_replicate_2 by solve_lengths. simpl.
  unfold torch.Rgtb. by destruct (Rlt_dec 0 s), (Rlt_dec 1 s).
Qed.

(** C4: whatever [p] the caller gives, the parameter that forward saves lies
    in [1e-5, 1 - 1e-5], so that neither [p] nor [1 - p] is zero when backward
    divides by them; and at every position where the saved sample is 1 the
    downward contribution is replaced by 0 in the averaged weight. *)
Theorem Geometric_clamp_guards_backward
    (gen : Generator) (ctx : FunctionCtx (tensor * tensor)) (p : tensor) :
  (∃ result q : tensor,
     Geometric.forward gen ctx p = Ok (mkCtx (Some (result, q)), result) ∧
     length q = length p ∧
     ∀ (i : nat) (x : R), q !! i = Some x →
       1e-5 <= x <= 1 - 1e-5 ∧ x ≠ 0 ∧ 1 - x ≠ 0) ∧
  (∀ (ctx' : FunctionCtx (tensor * tensor)) (result q g : tensor),
     saved_tensors ctx' = Some (result, q) →
     length result = length q →
     length g = length q →
     ∃ down out : tensor,
       Geometric.w_minus_cont result q = Ok down ∧
       Geometric.backward ctx' g = Ok out ∧
       ∀ (i : nat) (x gi : R),
         result !! i = Some 1 → q !! i = Some x → g !! i = Some gi →
         down !! i = Some 0 ∧
         out !! i = Some (gi * ((1 / x + 0) / 2))).
Proof.
  split.
  - destruct (Geometric_forward_returns gen ctx p) as (result & Hfwd & _ & _).
    eexists _, _. split; [exact Hfwd|]. split; [apply length_clamp|].
    intros i x Hx. apply lookup_clamp in Hx.
    unfold Geometric.clamp_min, Geometric.clamp_max in Hx. lra.
  - intros ctx' result q g Hctx Hres Hg.
    destruct (Geometric_backward_same_shape ctx' result q g Hctx Hres Hg)
      as (down & out & Hdown & Hout & _ & Hpos).
    exists down, out. split; [done|]. split; [done|].
    intros i x gi Hs Hx Hgi.
    destruct (Hpos i 1 x gi Hs Hx Hgi) as [Hd Ho].
    destruct (Rlt_dec 1 1); [lra|]. destruct (Rlt_dec 0 1); [|lra]. done.
Qed.

Lemma Geometric_clamp_guards_backward_witness :
  ∃ down out : tensor,
    Geometric.w_minus_cont [1; 3] [0.5; 0.25] = Ok down ∧
    Geometric.backward (mkCtx (Some ([1; 3], [0.5; 0.25]))) [2; 7] = Ok out ∧
    down !! 0%nat = Some 0 ∧
    out !! 0%nat = Some (2 * ((1 / 0.5 + 0) / 2)).
Proof.
  destruct (Geometric_clamp_guards_backward (λ _, 0) fresh_ctx [0; 1])
    as [_ Hback].
  destruct (Hback (mkCtx (Some ([1; 3], [0.5; 0.25]))) [1; 3] [0.5; 0.25] [2; 7]
              eq_refl eq_refl eq_refl) as (down & out & Hd & Ho & Hpos).
  exists down, out. split; [exact Hd|]. split; [exact Ho|].
  exact (Hpos 0%nat 0.5 2 eq_refl eq_refl eq_refl).
Defined.

Lemma ln_negative (x : R) : 0 < x → x < 1 → ln x < 0.
Proof. intros H0 H1. rewrite <- ln_1. by apply ln_increasing. Qed.

Lemma ratio_of_negatives (a b : R) : a < 0 → b < 0 → 0 < a / b.
Proof.
  intros Ha Hb. replace (a / b) with (- a * / - b) by (field; lra).
  apply Rmult_lt_0_compat; [lra|]. apply Rinv_0_lt_compat. lra.
Qed.

(** For a draw strictly inside (0,1) the value sampled is an integer, at
    least 1. *)
Lemma inverse_cdf_positive (u q : R) :
  0 < u < 1 → Geometric.clamp_min <= q <= Geometric.clamp_max →
  ∃ z : Z, inverse_cdf u q = IZR z ∧ (1 ≤ z)%Z.
Proof.
  unfold Geometric.clamp_min, Geometric.clamp_max. intros Hu Hq.
  exists (Zceil (ln (1 - u) / ln (1 - q))). split; [done|].
  assert (Hpos : 0 < ln (1 - u) / ln (1 - q)).
  { apply ratio_of_negatives; apply ln_negative; lra. }
  pose proof (Zceil_bound (ln (1 - u) / ln (1 - q))) as [_ Hub].
  assert (Hz : (0 < Zceil (ln (1 - u) / ln (1 - q)))%Z) by (apply lt_IZR; lra).
  lia.
Qed.

(** A draw equal to 0 is sent to 0, whatever the parameter. *)
Lemma inverse_cdf_zero_draw (q : R) : inverse_cdf 0 q = 0.
Proof.
  unfold inverse_cdf. rewrite Rminus_0_r, ln_1.
  replace (0 / ln (1 - q)) with 0 by (unfold Rdiv; ring).
  f_equal. apply (Zceil_eq 0). lra.
Qed.

(** With every draw strictly inside (0,1), the forward pass returns positive
    integers only. *)
Lemma Geometric_forward_positive_interior
    (gen : Generator) (ctx : FunctionCtx (tensor * tensor)) (p : tensor) :
  (∀ k : nat, (k < length p)%nat → 0 < gen k < 1) →
  ∃ (ctx' : FunctionCtx (tensor * tensor)) (result : tensor),
    Geometric.forward gen ctx p = Ok (ctx', result) ∧
    length result = length p ∧
    ∀ (i : nat) (x : R), result !! i = Some x →
      ∃ z : Z, x = IZR z ∧ (1 ≤ z)%Z.
Proof.
  intros Hgen.
  destruct (Geometric_forward_returns gen ctx p) as (result & Hfwd & Hlen & Hval).
  eexists _, result. split; [exact Hfwd|]. split; [done|].
  intros i x Hx.
  assert (Hi : (i < length p)%nat).
  { rewrite <- Hlen. by eapply lookup_lt_Some. }
  destruct (lookup_lt_is_Some_2
              (torch.clamp p Geometric.clamp_min Geometric.clamp_max) i)
    as [q Hq]; [by rewrite length_clamp|].
  rewrite (Hval i q Hq) in Hx. injection Hx as <-.
  apply inverse_cdf_positive; [by apply Hgen | by eapply lookup_clamp].
Qed.

(** C5 at the draw [u = 0], which [torch.rand] may return: the forward pass
    on [p = [0.5]] returns the sample 0, which is not a positive integer. *)
Theorem Geometric_forward_zero_draw :
  Geometric.forward (λ _, 0) fresh_ctx [0.5]
  = Ok (mkCtx (Some ([0], [0.5])), [0]) ∧
  ¬ ∃ z : Z, 0 = IZR z ∧ (1 ≤ z)%Z.
Proof.
  split.
  - destruct (Geometric_forward_returns (λ _, 0) fresh_ctx [0.5])
      as (result & -> & Hlen & Hval).
    assert (Hclamp : torch.clamp [0.5] Geometric.clamp_min Geometric.clamp_max
                     = [0.5]).
    { unfold torch.clamp. simpl. f_equal. apply clamp_inside.
      unfold Geometric.clamp_min, Geometric.clamp_max. lra. }
    rewrite Hclamp in Hval |- *.
    specialize (Hval 0%nat 0.5 eq_refl). rewrite inverse_cdf_zero_draw in Hval.
    destruct result as [|x [|y result]]; try discriminate.
    simpl in Hval. by injection Hval as ->.
  - intros (z & Hz & Hz1). apply eq_IZR in Hz. lia.
Qed.

(** ** The forward passes and what they save *)

Lemma length_bernoulli (gen : Generator) (p : tensor) :
  length (torch.bernoulli gen p) = length p.
Proof. unfold torch.bernoulli. by rewrite length_imap. Qed.

Lemma lookup_bernoulli (gen : Generator) (p : tensor) (i : nat) (x : R) :
  p !! i = Some x →
  torch.bernoulli gen p !! i = Some (if Rlt_dec (gen i) x then 1 else 0).
Proof.
  intros Hx. unfold torch.bernoulli. by rewrite list_lookup_imap, Hx.
Qed.

(** C8: on one parameter tensor and one stream of draws, the forward passes
    of the two Bernoulli operators are the same function: each samples
    Bernoulli(p) elementwise, saves (result, p) and returns the result. *)
Theorem Bernoulli_forwards_agree
    (gen : Generator) (ctx : FunctionCtx (tensor * tensor)) (p : tensor) :
  StraightThroughBernoulli.forward gen ctx p = Bernoulli.forward gen ctx p ∧
  Bernoulli.forward gen ctx p
  = (mkCtx (Some (torch.bernoulli gen p, p)), torch.bernoulli gen p) ∧
  length (torch.bernoulli gen p) = length p ∧
  ∀ (i : nat) (x : R), p !! i = Some x →
    torch.bernoulli gen p !! i = Some (if Rlt_dec (gen i) x then 1 else 0).
Proof.
  split; [reflexivity|]. split; [reflexivity|].
  split; [apply length_bernoulli|]. intros i x. apply lookup_bernoulli.
Qed.

Lemma clamp_fixed_iff (p : tensor) :
  torch.clamp p Geometric.clamp_min Geometric.clamp_max = p
  ↔ ∀ (i : nat) (x : R), p !! i = Some x →
      Geometric.clamp_min <= x <= Geometric.clamp_max.
Proof.
  split.
  - intros Heq i x Hx. rewrite <- Heq in Hx. by eapply lookup_clamp.
  - intros Hin. unfold torch.clamp. apply list_eq. intros i.
    rewrite list_lookup_fmap. destruct (p !! i) as [x|] eqn:Hx; [|done].
    simpl. f_equal. apply clamp_inside. by apply (Hin i).
Qed.

(** C9, as the code has it: each forward pass saves the sample with the
    caller's parameters (for Categorical: [probs] with the sampled index, the
    value returned being that index), except that the Geometric operator
    saves the parameter clamped into [1e-5, 1 - 1e-5]; that one equals the
    caller's [p] exactly when [p] lies in that interval already. *)
Theorem forward_saved_context
    (gen : Generator) (sample p n probs : tensor)
    (ctx : FunctionCtx (tensor * tensor))
    (ctx3 : FunctionCtx (tensor * tensor * tensor))
    (ctxi : FunctionCtx (tensor * Z)) :
  (∃ result : tensor,
     StraightThroughBernoulli.forward gen ctx p
     = (mkCtx (Some (result, p)), result)) ∧
  (∃ result : tensor,
     Bernoulli.forward gen ctx p = (mkCtx (Some (result, p)), result)) ∧
  (∃ result : tensor,
     Binomial.forward sample ctx3 n p = (mkCtx (Some (result, p, n)), result)) ∧
  (∃ result : tensor,
     Geometric.forward gen ctx p
     = Ok (mkCtx (Some (result,
                        torch.clamp p Geometric.clamp_min Geometric.clamp_max)),
           result) ∧
     (torch.clamp p Geometric.clamp_min Geometric.clamp_max = p
      ↔ ∀ (i : nat) (x : R), p !! i = Some x → 1e-5 <= x <= 1 - 1e-5)) ∧
  (∃ idx : nat,
     StochasticCategorical.forward gen ctxi probs
     = (mkCtx (Some (probs, Z.of_nat idx)), INR idx)).
Proof.
  split; [by eexists|]. split; [by eexists|]. split; [by eexists|]. split.
  - destruct (Geometric_forward_returns gen ctx p) as (result & Hfwd & _).
    exists result. split; [done|]. apply clamp_fixed_iff.
  - eexists. unfold StochasticCategorical.forward, save_for_backward.
    by rewrite INR_IZR_INZ.
Qed.

(** On [p = [0]] the Geometric forward pass saves [1e-5], not the [0] that
    the caller passed. *)
Lemma Geometric_forward_saves_clamped_parameter :
  (∃ result : tensor,
     Geometric.forward (λ _, 0.5) fresh_ctx [0]
     = Ok (mkCtx (Some (result, [1e-5])), result)) ∧
  ¬ (∃ (ctx' : FunctionCtx (tensor * tensor)) (result : tensor),
       Geometric.forward (λ _, 0.5) fresh_ctx [0] = Ok (ctx', result) ∧
       saved_tensors ctx' = Some (result, [0])).
Proof.
  destruct (Geometric_forward_returns (λ _, 0.5) fresh_ctx [0])
    as (result & Hfwd & _).
  assert (Hclamp : torch.clamp [0] Geometric.clamp_min Geometric.clamp_max
                   = [1e-5]).
  { unfold torch.clamp, Geometric.clamp_min, Geometric.clamp_max, Rmin, Rmax.
    simpl. f_equal.
    destruct (Rle_dec 0 1e-5); [|lra]. destruct (Rle_dec 1e-5 (1 - 1e-5)); lra. }
  rewrite Hclamp in Hfwd. split; [by exists result|].
  intros (ctx' & result' & Hfwd' & Hsaved).
  rewrite Hfwd in Hfwd'. injection Hfwd' as <- <-.
  simpl in Hsaved. injection Hsaved as Hp. lra.
Qed.

(** ** The backward passes are functions of the saved context *)

(** C10: a backward pass takes the context and the upstream gradient and
    nothing else, no generator in particular; equal saved tensors and equal
    upstream gradients give equal results, for each operator. *)
Theorem backward_deterministic
    (c1 c2 : FunctionCtx (tensor * tensor))
    (b1 b2 : FunctionCtx (tensor * tensor * tensor))
    (k1 k2 : FunctionCtx (tensor * Z))
    (g1 g2 : tensor) (s1 s2 : R) :
  saved_tensors c1 = saved_tensors c2 →
  saved_tensors b1 = saved_tensors b2 →
  saved_tensors k1 = saved_tensors k2 →
  g1 = g2 → s1 = s2 →
  StraightThroughBernoulli.backward c1 g1 = StraightThroughBernoulli.backward c2 g2 ∧
  Bernoulli.backward c1 g1 = Bernoulli.backward c2 g2 ∧
  Binomial.backward b1 g1 = Binomial.backward b2 g2 ∧
  Geometric.backward c1 g1 = Geometric.backward c2 g2 ∧
  StochasticCategorical.backward k1 s1 = StochasticCategorical.backward k2 s2.
Proof.
  intros Hc Hb Hk -> ->.
  unfold StraightThroughBernoulli.backward, Bernoulli.backward,
    Binomial.backward, Geometric.backward, StochasticCategorical.backward,
    unpack.
  rewrite Hc, Hb, Hk. done.
Qed.

Lemma backward_deterministic_witness :
  StraightThroughBernoulli.backward (mkCtx (Some ([1], [0.3]))) [1]
  = StraightThroughBernoulli.backward (mkCtx (Some ([1], [0.3]))) [1] ∧
  Bernoulli.backward (mkCtx (Some ([1], [0.3]))) [1]
  = Bernoulli.backward (mkCtx (Some ([1], [0.3]))) [1] ∧
  Binomial.backward (mkCtx (Some ([2], [0.4], [5]))) [1]
  = Binomial.backward (mkCtx (Some ([2], [0.4], [5]))) [1] ∧
  Geometric.backward (mkCtx (Some ([1], [0.3]))) [1]
  = Geometric.backward (mkCtx (Some ([1], [0.3]))) [1] ∧
  StochasticCategorical.backward (mkCtx (Some ([0.2; 0.3; 0.5], 2%Z))) 1
  = StochasticCategorical.backward (mkCtx (Some ([0.2; 0.3; 0.5], 2%Z))) 1.
Proof.
  apply (backward_deterministic
           (mkCtx (Some ([1], [0.3]))) (mkCtx (Some ([1], [0.3])))
           (mkCtx (Some ([2], [0.4], [5]))) (mkCtx (Some ([2], [0.4], [5])))
           (mkCtx (Some ([0.2; 0.3; 0.5], 2%Z)))
           (mkCtx (Some ([0.2; 0.3; 0.5], 2%Z)))
           [1] [1] 1 1); reflexivity.
Defined.

(** ** Outside the contract: what the embedding does there *)

(** A backward pass on a context that no forward pass has filled. *)
Example backward_before_forward :
  Bernoulli.backward fresh_ctx [1] = Raise ValueError.
Proof. reflexivity. Qed.

(** Operands of 2 and 3 elements do not broadcast. *)
Example mul_shape_mismatch : torch.mul [1; 2] [1; 2; 3] = Raise RuntimeError.
Proof. reflexivity. Qed.

(** An upstream gradient of a single element is broadcast over the sample. *)
Example straight_through_broadcasts :
  StraightThroughBernoulli.backward (mkCtx (Some ([1; 0], [0.3; 0.8]))) [3]
  = Ok [3; 3].
Proof.
  unfold StraightThroughBernoulli.backward, torch.mul, torch.pointwise.
  simpl. do 2 f_equal; [lra|]. f_equal. lra.
Qed.

(** When the entries of [probs] sum to less than the draw, the search returns
    the length of [probs], and the backward pass on that index fails. *)
Example categorical_index_past_the_end :
  StochasticCategorical.forward (λ _, 0.9) fresh_ctx [0.25; 0.5]
  = (mkCtx (Some ([0.25; 0.5], 2%Z)), 2) ∧
  StochasticCategorical.backward (mkCtx (Some ([0.25; 0.5], 2%Z))) 1
  = Raise IndexError.
Proof.
  split; [|reflexivity].
  unfold StochasticCategorical.forward, torch.cumsum. simpl.
  destruct (Rlt_dec (0 + 0.25) 0.9); [|lra].
  destruct (Rlt_dec (0 + 0.25 + 0.5) 0.9); [|lra]. reflexivity.
Qed.

(** * Further properties of the operators *)

(** ** Geometric: the law of the sample *)

Lemma ln_le_iff (x y : R) : 0 < x → 0 < y → (ln x <= ln y ↔ x <= y).
Proof.
  intros Hx Hy. split.
  - intros [Hlt | Heq]; [left; by apply ln_lt_inv | right; by apply ln_inv].
  - intros [Hlt | ->]; [left; by apply ln_increasing | by right].
Qed.

Lemma Zceil_le_iff (r : R) (z : Z) : (Zceil r ≤ z)%Z ↔ r <= IZR z.
Proof.
  pose proof (Zceil_bound r) as [Hlo Hhi]. split.
  - intros Hz. apply IZR_le in Hz. lra.
  - intros Hr. assert (H : (Zceil r - 1 < z)%Z); [|lia].
    apply lt_IZR. rewrite minus_IZR. lra.
Qed.

(** The sample is at most [k] exactly when the draw is at most the Geometric
    distribution function at [k], [1 - (1 - q)^k]. *)
Lemma inverse_cdf_le_iff (u q : R) (k : nat) :
  0 <= u < 1 → Geometric.clamp_min <= q <= Geometric.clamp_max →
  inverse_cdf u q <= INR k ↔ u <= 1 - (1 - q) ^ k.
Proof.
  unfold Geometric.clamp_min, Geometric.clamp_max. intros Hu Hq.
  assert (Hq1 : 0 < 1 - q) by lra.
  assert (Hb : ln (1 - q) < 0) by (apply ln_negative; lra).
  assert (Hpow : 0 < (1 - q) ^ k) by (by apply pow_lt).
  unfold inverse_cdf. rewrite INR_IZR_INZ.
  transitivity (ln (1 - u) / ln (1 - q) <= IZR (Z.of_nat k)).
  { split; intros H.
    - apply Zceil_le_iff. by apply le_IZR.
    - apply IZR_le. by apply Zceil_le_iff. }
  rewrite <- INR_IZR_INZ.
  transitivity (ln ((1 - q) ^ k) <= ln (1 - u)).
  { rewrite ln_pow by done. unfold Rdiv.
    assert (Hi : / ln (1 - q) < 0) by (by apply Rinv_lt_0_compat).
    assert (Hib : ln (1 - q) * / ln (1 - q) = 1) by (field; lra).
    generalize dependent (ln (1 - u)). generalize dependent (/ ln (1 - q)).
    generalize dependent (ln (1 - q)). intros b Hb i Hi Hib a.
    split; intros H.
    - pose proof (Rmult_le_compat_neg_l b (a * i) (INR k) ltac:(lra) H).
      replace (b * (a * i)) with (a * (b * i)) in * by ring. rewrite Hib in *.
      lra.
    - pose proof (Rmult_le_compat_neg_l i (INR k * b) a ltac:(lra) H).
      replace (i * (INR k * b)) with (INR k * (b * i)) in * by ring.
      rewrite Hib in *. lra. }
  rewrite ln_le_iff by lra. lra.
Qed.

(** What forward computes at one position of [p]. *)
Lemma Geometric_forward_at
    (gen : Generator) (ctx : FunctionCtx (tensor * tensor)) (p : tensor)
    (i : nat) (pi : R) :
  p !! i = Some pi →
  ∃ (ctx' : FunctionCtx (tensor * tensor)) (result q : tensor),
    Geometric.forward gen ctx p = Ok (ctx', result) ∧
    saved_tensors ctx' = Some (result, q) ∧
    length result = length p ∧ length q = length p ∧
    q !! i = Some (Rmin (Rmax pi Geometric.clamp_min) Geometric.clamp_max) ∧
    result !! i
    = Some (inverse_cdf (gen i)
              (Rmin (Rmax pi Geometric.clamp_min) Geometric.clamp_max)).
Proof.
  intros Hpi.
  destruct (Geometric_forward_returns gen ctx p) as (result & Hfwd & Hlen & Hval).
  assert (Hq : torch.clamp p Geometric.clamp_min Geometric.clamp_max !! i
               = Some (Rmin (Rmax pi Geometric.clamp_min) Geometric.clamp_max)).
  { unfold torch.clamp. by rewrite list_lookup_fmap, Hpi. }
  eexists _, result, _. split; [exact Hfwd|]. split; [reflexivity|].
  split; [done|]. split; [apply length_clamp|]. split; [done|].
  by apply Hval.
Qed.

(** The Geometric forward pass samples by inversion of the distribution
    function: with a draw in [0,1) at position [i], the sample there is at
    most [k] exactly when the draw is at most [1 - (1 - q)^k], [q] being the
    clamped parameter. *)
Theorem Geometric_forward_distribution_function
    (gen : Generator) (ctx : FunctionCtx (tensor * tensor)) (p : tensor)
    (i k : nat) (pi : R) :
  p !! i = Some pi →
  0 <= gen i < 1 →
  ∃ (ctx' : FunctionCtx (tensor * tensor)) (result : tensor) (s q : R),
    Geometric.forward gen ctx p = Ok (ctx', result) ∧
    result !! i = Some s ∧
    q = Rmin (Rmax pi 1e-5) (1 - 1e-5) ∧
    (s <= INR k ↔ gen i <= 1 - (1 - q) ^ k).
Proof.
  intros Hpi Hu.
  destruct (Geometric_forward_at gen ctx p i pi Hpi)
    as (ctx' & result & q & Hfwd & _ & _ & _ & _ & Hs).
  eexists ctx', result, _, _. split; [done|]. split; [exact Hs|].
  split; [reflexivity|].
  apply inverse_cdf_le_iff; [done | apply clamp_bounds].
Qed.

Lemma Geometric_forward_distribution_function_witness :
  ∃ (ctx' : FunctionCtx (tensor * tensor)) (result : tensor) (s q : R),
    Geometric.forward (λ _, 0.7) fresh_ctx [0.5] = Ok (ctx', result) ∧
    result !! 0%nat = Some s ∧
    q = Rmin (Rmax 0.5 1e-5) (1 - 1e-5) ∧
    (s <= INR 2 ↔ 0.7 <= 1 - (1 - q) ^ 2).
Proof.
  apply (Geometric_forward_distribution_function
           (λ _, 0.7) fresh_ctx [0.5] 0 2 0.5 eq_refl).
  lra.
Defined.

(** A larger draw never gives a smaller sample. *)
Lemma inverse_cdf_monotone (u1 u2 q : R) :
  0 <= u1 → u1 <= u2 → u2 < 1 →
  Geometric.clamp_min <= q <= Geometric.clamp_max →
  inverse_cdf u1 q <= inverse_cdf u2 q.
Proof.
  unfold Geometric.clamp_min, Geometric.clamp_max. intros H0 H12 H1 Hq.
  assert (Hb : ln (1 - q) < 0) by (apply ln_negative; lra).
  assert (Hln : ln (1 - u2) <= ln (1 - u1)) by (apply ln_le_iff; lra).
  unfold inverse_cdf. apply IZR_le, Zceil_le.
  assert (Hi : / ln (1 - q) < 0) by (by apply Rinv_lt_0_compat).
  unfold Rdiv. nra.
Qed.

(** Two runs of the Geometric forward pass on the same parameter: where the
    draw of the second run is at least that of the first, so is its sample. *)
Theorem Geometric_forward_monotone_in_draw
    (gen1 gen2 : Generator) (ctx : FunctionCtx (tensor * tensor)) (p : tensor)
    (i : nat) (pi : R) :
  p !! i = Some pi →
  0 <= gen1 i → gen1 i <= gen2 i → gen2 i < 1 →
  ∃ (ctx1 ctx2 : FunctionCtx (tensor * tensor)) (r1 r2 : tensor) (s1 s2 : R),
    Geometric.forward gen1 ctx p = Ok (ctx1, r1) ∧
    Geometric.forward gen2 ctx p = Ok (ctx2, r2) ∧
    r1 !! i = Some s1 ∧ r2 !! i = Some s2 ∧ s1 <= s2.
Proof.
  intros Hpi H0 H12 H1.
  destruct (Geometric_forward_at gen1 ctx p i pi Hpi)
    as (ctx1 & r1 & q1 & Hf1 & _ & _ & _ & _ & Hs1).
  destruct (Geometric_forward_at gen2 ctx p i pi Hpi)
    as (ctx2 & r2 & q2 & Hf2 & _ & _ & _ & _ & Hs2).
  eexists ctx1, ctx2, r1, r2, _, _.
  repeat split; [done | done | exact Hs1 | exact Hs2 |].
  apply inverse_cdf_monotone; [done | done | done | apply clamp_bounds].
Qed.

Lemma Geometric_forward_monotone_in_draw_witness :
  ∃ (ctx1 ctx2 : FunctionCtx (tensor * tensor)) (r1 r2 : tensor) (s1 s2 : R),
    Geometric.forward (λ _, 0.2) fresh_ctx [0.5] = Ok (ctx1, r1) ∧
    Geometric.forward (λ _, 0.9) fresh_ctx [0.5] = Ok (ctx2, r2) ∧
    r1 !! 0%nat = Some s1 ∧ r2 !! 0%nat = Some s2 ∧ s1 <= s2.
Proof.
  apply (Geometric_forward_monotone_in_draw
           (λ _, 0.2) (λ _, 0.9) fresh_ctx [0.5] 0 0.5 eq_refl); lra.
Defined.

(** ** Geometric: forward followed by backward *)

Lemma clamp_idempotent (p : tensor) :
  torch.clamp (torch.clamp p Geometric.clamp_min Geometric.clamp_max)
    Geometric.clamp_min Geometric.clamp_max
  = torch.clamp p Geometric.clamp_min Geometric.clamp_max.
Proof. apply clamp_fixed_iff. intros i x. apply lookup_clamp. Qed.

(** Clamping the parameter before the call changes nothing: the forward pass
    returns the same sample and saves the same context. *)
Theorem Geometric_forward_absorbs_clamp
    (gen : Generator) (ctx : FunctionCtx (tensor * tensor)) (p : tensor) :
  Geometric.forward gen ctx (torch.clamp p 1e-5 (1 - 1e-5))
  = Geometric.forward gen ctx p.
Proof.
  unfold Geometric.forward.
  change (torch.clamp p 1e-5 (1 - 1e-5))
    with (torch.clamp p Geometric.clamp_min Geometric.clamp_max).
  by rewrite clamp_idempotent.
Qed.

(** The backward pass on the context that the forward pass saved, with an
    upstream gradient of the shape of [p], never raises.  Where the draw was
    strictly inside (0,1) the gradient is the upstream one times a weight
    above 1/2; where the draw was 0 the sample is 0 and the gradient is 0. *)
Theorem Geometric_forward_then_backward
    (gen : Generator) (ctx : FunctionCtx (tensor * tensor)) (p g : tensor) :
  length g = length p →
  ∃ (ctx' : FunctionCtx (tensor * tensor)) (result out : tensor),
    Geometric.forward gen ctx p = Ok (ctx', result) ∧
    Geometric.backward ctx' g = Ok out ∧
    length out = length p ∧
    ∀ (i : nat) (gi : R), g !! i = Some gi →
      (0 < gen i < 1 → ∃ w : R, out !! i = Some (gi * w) ∧ 1 / 2 < w) ∧
      (gen i = 0 → result !! i = Some 0 ∧ out !! i = Some 0).
Proof.
  intros Hg.
  destruct (Geometric_forward_returns gen ctx p) as (result & Hfwd & Hlen & Hval).
  set (q := torch.clamp p Geometric.clamp_min Geometric.clamp_max) in *.
  assert (Hq : length q = length p) by apply length_clamp.
  destruct (Geometric_backward_same_shape
              (mkCtx (Some (result, q))) result q g eq_refl)
    as (down & out & _ & Hback & Hout & Hpos); [lia | lia |].
  exists (mkCtx (Some (result, q))), result, out.
  split; [done|]. split; [done|]. split; [lia|].
  intros i gi Hgi.
  assert (Hi : (i < length q)%nat).
  { rewrite Hq, <- Hg. by eapply lookup_lt_Some. }
  destruct (lookup_lt_is_Some_2 q i Hi) as [x Hx].
  pose proof (Hval i x Hx) as Hs.
  destruct (Hpos i _ x gi Hs Hx Hgi) as [_ Ho].
  pose proof (lookup_clamp p i x Hx) as Hrange.
  split.
  - intros Hu.
    destruct (inverse_cdf_positive (gen i) x Hu Hrange) as (z & Hz & Hz1).
    eexists. split; [exact Ho|].
    rewrite Hz. apply IZR_le in Hz1.
    unfold Geometric.clamp_min, Geometric.clamp_max in Hrange.
    assert (Hinv : 1 < 1 / x).
    { unfold Rdiv. rewrite Rmult_1_l, <- Rinv_1.
      apply Rinv_lt_contravar; lra. }
    destruct (Rlt_dec 0 (IZR z)); [|lra].
    destruct (Rlt_dec 1 (IZR z)); [|lra].
    assert (Hdown : 0 <= (IZR z - 1) / (1 - x)).
    { unfold Rdiv. apply Rmult_le_pos; [lra|].
      left. apply Rinv_0_lt_compat. lra. }
    lra.
  - intros Hu. rewrite Hu, inverse_cdf_zero_draw in Hs, Ho.
    split; [done|]. rewrite Ho. f_equal.
    destruct (Rlt_dec 0 0); [lra|]. destruct (Rlt_dec 1 0); lra.
Qed.

Lemma Geometric_forward_then_backward_witness :
  ∃ (ctx' : FunctionCtx (tensor * tensor)) (result out : tensor),
    Geometric.forward (λ k, INR k / 2) fresh_ctx [0.5; 0.25] = Ok (ctx', result) ∧
    Geometric.backward ctx' [3; 4] = Ok out ∧
    length out = 2%nat ∧
    ∀ (i : nat) (gi : R), [3; 4] !! i = Some gi →
      (0 < INR i / 2 < 1 → ∃ w : R, out !! i = Some (gi * w) ∧ 1 / 2 < w) ∧
      (INR i / 2 = 0 → result !! i = Some 0 ∧ out !! i = Some 0).
Proof.
  apply (Geometric_forward_then_backward
           (λ k, INR k / 2) fresh_ctx [0.5; 0.25] [3; 4]).
  reflexivity.
Defined.

(** ** Weighted-Jump Bernoulli: forward followed by backward *)

(** The backward pass on operands of one shape, with the weight as the
    source selects it. *)
Lemma Bernoulli_backward_same_shape
    (ctx : FunctionCtx (tensor * tensor)) (result p g : tensor) :
  saved_tensors ctx = Some (result, p) →
  length result = length p →
  length g = length p →
  ∃ out : tensor,
    Bernoulli.backward ctx g = Ok out ∧
    length out = length p ∧
    ∀ (i : nat) (r pi gi : R),
      result !! i = Some r → p !! i = Some pi → g !! i = Some gi →
      out !! i
      = Some (gi * (if Req_dec_T r 1 then 1 / pi / 2 else 1 / (1 - pi) / 2)).
Proof.
  intros Hctx Hres Hg. unfold Bernoulli.backward.
  rewrite (unpack_saved _ _ Hctx), bind_Ok.
  rewrite where_same_length, bind_Ok by solve_lengths.
  unfold torch.mul. rewrite pointwise_same_length by solve_lengths.
  eexists. split; [reflexivity|]. split; [solve_lengths|].
  intros i r pi gi Hr Hp Hgi.
  unfold_elementwise. lookup_elementwise.
  unfold torch.Reqb. by destruct (Req_dec_T r 1).
Qed.

(** The backward pass on the context that the forward pass saved, with an
    upstream gradient of the shape of [p], never raises; where the draw fell
    below [p] the sample is 1 and the gradient [g / (2p)], elsewhere the
    sample is 0 and the gradient [g / (2(1-p))]. *)
Theorem Bernoulli_forward_then_backward
    (gen : Generator) (ctx : FunctionCtx (tensor * tensor)) (p g : tensor) :
  length g = length p →
  ∃ (ctx' : FunctionCtx (tensor * tensor)) (result out : tensor),
    Bernoulli.forward gen ctx p = (ctx', result) ∧
    Bernoulli.backward ctx' g = Ok out ∧
    length result = length p ∧ length out = length p ∧
    ∀ (i : nat) (pi gi : R), p !! i = Some pi → g !! i = Some gi →
      (gen i < pi →
         result !! i = Some 1 ∧ out !! i = Some (gi / (2 * pi))) ∧
      (pi <= gen i →
         result !! i = Some 0 ∧ out !! i = Some (gi / (2 * (1 - pi)))).
Proof.
  intros Hg.
  pose proof (length_bernoulli gen p) as Hlen.
  destruct (Bernoulli_backward_same_shape
              (mkCtx (Some (torch.bernoulli gen p, p)))
              (torch.bernoulli gen p) p g eq_refl Hlen Hg)
    as (out & Hback & Hout & Hpos).
  eexists _, _, out. split; [reflexivity|]. split; [exact Hback|].
  split; [done|]. split; [done|].
  intros i pi gi Hpi Hgi.
  pose proof (lookup_bernoulli gen p i pi Hpi) as Hr.
  pose proof (Hpos i _ pi gi Hr Hpi Hgi) as Ho.
  split; intros Hu.
  - destruct (Rlt_dec (gen i) pi); [|lra]. split; [done|].
    rewrite Ho. destruct (Req_dec_T 1 1); [|done]. by rewrite half_inverse.
  - destruct (Rlt_dec (gen i) pi); [lra|]. split; [done|].
    rewrite Ho. destruct (Req_dec_T 0 1); [lra|]. by rewrite half_inverse.
Qed.

Lemma Bernoulli_forward_then_backward_witness :
  ∃ (ctx' : FunctionCtx (tensor * tensor)) (result out : tensor),
    Bernoulli.forward (λ _, 0.5) fresh_ctx [0.3; 0.8] = (ctx', result) ∧
    Bernoulli.backward ctx' [2; -5] = Ok out ∧
    length result = 2%nat ∧ length out = 2%nat ∧
    ∀ (i : nat) (pi gi : R),
      [0.3; 0.8] !! i = Some pi → [2; -5] !! i = Some gi →
      (0.5 < pi →
         result !! i = Some 1 ∧ out !! i = Some (gi / (2 * pi))) ∧
      (pi <= 0.5 →
         result !! i = Some 0 ∧ out !! i = Some (gi / (2 * (1 - pi)))).
Proof.
  apply (Bernoulli_forward_then_backward (λ _, 0.5) fresh_ctx [0.3; 0.8] [2; -5]).
  reflexivity.
Defined.

(** For a parameter strictly between 0 and 1, the two weights of the
    estimator average to 1 under the distribution of the sample: the gradient
    returned at sample 1, taken with probability [p], and the one returned at
    sample 0, taken with probability [1 - p], add up to the upstream
    gradient, which is what the straight-through pass returns. *)
Theorem Bernoulli_backward_mean_weight (p g : R) :
  0 < p < 1 →
  ∃ at_one at_zero : R,
    Bernoulli.backward (mkCtx (Some ([1], [p]))) [g] = Ok [at_one] ∧
    Bernoulli.backward (mkCtx (Some ([0], [p]))) [g] = Ok [at_zero] ∧
    p * at_one + (1 - p) * at_zero = g.
Proof.
  intros Hp. eexists _, _. split; [|split].
  - unfold Bernoulli.backward, torch.where_, torch.mul, torch.pointwise.
    simpl. rewrite Reqb_true. reflexivity.
  - unfold Bernoulli.backward, torch.where_, torch.mul, torch.pointwise.
    simpl. rewrite Reqb_false by lra. reflexivity.
  - simpl. field. lra.
Qed.

Lemma Bernoulli_backward_mean_weight_witness :
  ∃ at_one at_zero : R,
    Bernoulli.backward (mkCtx (Some ([1], [0.3]))) [2] = Ok [at_one] ∧
    Bernoulli.backward (mkCtx (Some ([0], [0.3]))) [2] = Ok [at_zero] ∧
    0.3 * at_one + (1 - 0.3) * at_zero = 2.
Proof. apply (Bernoulli_backward_mean_weight 0.3 2). lra. Defined.

(** At [p = 1/2] both weights are 1: the weighted-jump backward pass returns
    what the straight-through one returns, the upstream gradient. *)
Theorem Bernoulli_backward_at_one_half
    (ctx : FunctionCtx (tensor * tensor)) (result p g : tensor) :
  saved_tensors ctx = Some (result, p) →
  length result = length p →
  length g = length p →
  (∀ (i : nat) (pi : R), p !! i = Some pi → pi = 1 / 2) →
  Bernoulli.backward ctx g = Ok g ∧
  Bernoulli.backward ctx g = StraightThroughBernoulli.backward ctx g.
Proof.
  intros Hctx Hres Hg Hhalf.
  destruct (Bernoulli_backward_same_shape ctx result p g Hctx Hres Hg)
    as (out & Hback & Hout & Hpos).
  assert (Heq : out = g).
  { apply list_eq. intros i.
    destruct (g !! i) as [gi|] eqn:Hgi.
    - pose proof (lookup_lt_Some _ _ _ Hgi) as Hi.
      destruct (lookup_lt_is_Some_2 p i) as [pi Hpi]; [lia|].
      destruct (lookup_lt_is_Some_2 result i) as [r Hr]; [lia|].
      rewrite (Hpos i r pi gi Hr Hpi Hgi). f_equal.
      rewrite (Hhalf i pi Hpi). destruct (Req_dec_T r 1); field.
    - apply lookup_ge_None. apply lookup_ge_None in Hgi. lia. }
  subst out. split; [done|]. rewrite Hback.
  unfold StraightThroughBernoulli.backward.
  rewrite (unpack_saved _ _ Hctx), bind_Ok.
  unfold torch.mul. rewrite pointwise_same_length by solve_lengths.
  replace (length result) with (length g) by lia.
  by rewrite zip_with_mul_ones.
Qed.

Lemma Bernoulli_backward_at_one_half_witness :
  Bernoulli.backward (mkCtx (Some ([1; 0], [1 / 2; 1 / 2]))) [3; 7] = Ok [3; 7] ∧
  Bernoulli.backward (mkCtx (Some ([1; 0], [1 / 2; 1 / 2]))) [3; 7]
  = StraightThroughBernoulli.backward
      (mkCtx (Some ([1; 0], [1 / 2; 1 / 2]))) [3; 7].
Proof.
  apply (Bernoulli_backward_at_one_half _ [1; 0] [1 / 2; 1 / 2]);
    try reflexivity.
  intros [|[|i]] pi Hpi; simpl in Hpi; try discriminate; by injection Hpi as <-.
Defined.

(** ** Binomial: boundaries, a single trial, a count given as a number *)

Lemma zip_with_replicate_l {A B C : Type} (f : A → B → C) (x : A) (b : list B) :
  zip_with f (replicate (length b) x) b = f x <$> b.
Proof. induction b as [|y b IH]; simpl; [done | by rewrite IH]. Qed.

Lemma pointwise_scalar_l {A B C : Type} (f : A → B → C) (x : A) (b : list B) :
  torch.pointwise f [x] b = Ok (f x <$> b).
Proof.
  unfold torch.pointwise, torch.broadcast_shapes. simpl length.
  destruct (decide (1%nat = length b)) as [H1|H1].
  - destruct b as [|y [|y' b]]; try discriminate. reflexivity.
  - rewrite decide_True by done. rewrite bind_Ok.
    replace (torch.expand (length b) b) with b
      by (by destruct b as [|y [|y' b]]).
    simpl. by rewrite zip_with_replicate_l.
Qed.


(** For a sample between 0 and the count and a parameter strictly between 0
    and 1 neither guard changes anything: the weight is the plain half-sum
    [(sample / p + (n - sample) / (1 - p)) / 2], and it is not negative. *)
Theorem Binomial_backward_within_range
    (ctx : FunctionCtx (tensor * tensor * tensor)) (result p n g : tensor) :
  saved_tensors ctx = Some (result, p, n) →
  length result = length p →
  length n = length p →
  length g = length p →
  ∃ out : tensor,
    Binomial.backward ctx g = Ok (None, out) ∧
    ∀ (i : nat) (s pi ni gi : R),
      result !! i = Some s → p !! i = Some pi → n !! i = Some ni →
      g !! i = Some gi →
      0 <= s <= ni → 0 < pi < 1 →
      out !! i = Some (gi * ((s / pi + (ni - s) / (1 - pi)) / 2)) ∧
      0 <= (s / pi + (ni - s) / (1 - pi)) / 2.
Proof.
  intros Hctx Hres Hn Hg. unfold Binomial.backward.
  rewrite (unpack_saved _ _ Hctx), bind_Ok.
  destruct (Binomial_weights_same_shape result p n Hres Hn)
    as (ws & -> & Hlen & Hws).
  rewrite bind_Ok. unfold torch.mul.
  rewrite pointwise_same_length, bind_Ok by lia.
  eexists. split; [reflexivity|].
  intros i s pi ni gi Hs Hp Hni Hgi Hrange Hpi.
  rewrite lookup_zip_with, Hgi, (Hws i s pi ni Hs Hp Hni). simpl.
  assert (Hd : 0 <= s / pi).
  { unfold Rdiv. apply Rmult_le_pos; [lra|]. left. apply Rinv_0_lt_compat. lra. }
  assert (Hu : 0 <= (ni - s) / (1 - pi)).
  { unfold Rdiv. apply Rmult_le_pos; [lra|]. left. apply Rinv_0_lt_compat. lra. }
  split; [|lra]. do 2 f_equal.
  destruct (Rlt_dec 0 s) as [H0|H0]; destruct (Rlt_dec s ni) as [H1|H1].
  - reflexivity.
  - replace s with ni by lra. unfold Rdiv. ring.
  - replace s with 0 by lra. unfold Rdiv. ring.
  - replace s with 0 by lra. replace ni with 0 by lra. unfold Rdiv. ring.
Qed.

Lemma Binomial_backward_within_range_witness :
  ∃ out : tensor,
    Binomial.backward (mkCtx (Some ([0; 5], [0.4; 0.4], [5; 5]))) [1; 1]
    = Ok (None, out) ∧
    ∀ (i : nat) (s pi ni gi : R),
      [0; 5] !! i = Some s → [0.4; 0.4] !! i = Some pi →
      [5; 5] !! i = Some ni → [1; 1] !! i = Some gi →
      0 <= s <= ni → 0 < pi < 1 →
      out !! i = Some (gi * ((s / pi + (ni - s) / (1 - pi)) / 2)) ∧
      0 <= (s / pi + (ni - s) / (1 - pi)) / 2.
Proof.
  apply (Binomial_backward_within_range _ [0; 5] [0.4; 0.4] [5; 5] [1; 1]);
    reflexivity.
Defined.

(** With one trial everywhere and samples in {0, 1}, the Binomial backward
    pass returns for [p] the gradient of the weighted-jump Bernoulli one. *)
Theorem Binomial_single_trial_is_Bernoulli
    (ctx3 : FunctionCtx (tensor * tensor * tensor))
    (ctx2 : FunctionCtx (tensor * tensor)) (result p n g : tensor) :
  saved_tensors ctx3 = Some (result, p, n) →
  saved_tensors ctx2 = Some (result, p) →
  length result = length p →
  length n = length p →
  length g = length p →
  (∀ (i : nat) (ni : R), n !! i = Some ni → ni = 1) →
  (∀ (i : nat) (s : R), result !! i = Some s → s = 0 ∨ s = 1) →
  ∃ out : tensor,
    Binomial.backward ctx3 g = Ok (None, out) ∧
    Bernoulli.backward ctx2 g = Ok out.
Proof.
  intros Hctx3 Hctx2 Hres Hn Hg Hone Hbit.
  destruct (Bernoulli_backward_same_shape ctx2 result p g Hctx2 Hres Hg)
    as (out & Hbern & Hout & Hpos).
  exists out. split; [|done].
  unfold Binomial.backward.
  rewrite (unpack_saved _ _ Hctx3), bind_Ok.
  destruct (Binomial_weights_same_shape result p n Hres Hn)
    as (ws & -> & Hlen & Hws).
  rewrite bind_Ok. unfold torch.mul.
  rewrite pointwise_same_length, bind_Ok by lia.
  do 3 f_equal. apply list_eq. intros i.
  destruct (g !! i) as [gi|] eqn:Hgi.
  - pose proof (lookup_lt_Some _ _ _ Hgi) as Hi.
    destruct (lookup_lt_is_Some_2 p i) as [pi Hpi]; [lia|].
    destruct (lookup_lt_is_Some_2 result i) as [s Hs]; [lia|].
    destruct (lookup_lt_is_Some_2 n i) as [ni Hni]; [lia|].
    rewrite lookup_zip_with, Hgi, (Hws i s pi ni Hs Hpi Hni).
    rewrite (Hpos i s pi gi Hs Hpi Hgi). simpl. do 2 f_equal.
    rewrite (Hone i ni Hni).
    destruct (Hbit i s Hs) as [-> | ->].
    + destruct (Rlt_dec 0 0); [lra|]. destruct (Rlt_dec 0 1); [|lra].
      destruct (Req_dec_T 0 1); [lra|]. unfold Rdiv. ring.
    + destruct (Rlt_dec 0 1); [|lra]. destruct (Rlt_dec 1 1); [lra|].
      destruct (Req_dec_T 1 1); [|done]. unfold Rdiv. ring.
  - rewrite lookup_zip_with, Hgi. simpl.
    symmetry. apply lookup_ge_None. apply lookup_ge_None in Hgi. lia.
Qed.

Lemma Binomial_single_trial_is_Bernoulli_witness :
  ∃ out : tensor,
    Binomial.backward (mkCtx (Some ([1; 0], [0.3; 0.8], [1; 1]))) [2; -5]
    = Ok (None, out) ∧
    Bernoulli.backward (mkCtx (Some ([1; 0], [0.3; 0.8]))) [2; -5] = Ok out.
Proof.
  apply (Binomial_single_trial_is_Bernoulli _ _ [1; 0] [0.3; 0.8] [1; 1] [2; -5]);
    try reflexivity.
  - intros [|[|i]] ni Hni; simpl in Hni; try discriminate;
      by injection Hni as <-.
  - intros [|[|i]] s Hs; simpl in Hs; try discriminate;
      injection Hs as <-; [by right | by left].
Defined.

(** The count given as one number for a whole vector of parameters: it is
    broadcast, and every position uses that count. *)
Theorem Binomial_backward_scalar_count
    (ctx : FunctionCtx (tensor * tensor * tensor)) (result p g : tensor)
    (n0 : R) :
  saved_tensors ctx = Some (result, p, [n0]) →
  length result = length p →
  length g = length p →
  ∃ out : tensor,
    Binomial.backward ctx g = Ok (None, out) ∧
    length out = length p ∧
    ∀ (i : nat) (s pi gi : R),
      result !! i = Some s → p !! i = Some pi → g !! i = Some gi →
      out !! i = Some (gi * (((if Rlt_dec 0 s then s / pi else 0)
                              + (if Rlt_dec s n0 then (n0 - s) / (1 - pi) else 0))
                             / 2)).
Proof.
  intros Hctx Hres Hg. unfold Binomial.backward.
  rewrite (unpack_saved _ _ Hctx), bind_Ok.
  unfold Binomial.weights, torch.div, torch.sub, torch.lt, torch.add, torch.mul.
  rewrite (pointwise_same_length Rdiv result p), bind_Ok by done.
  rewrite (pointwise_scalar_l Rminus), bind_Ok.
  rewrite (pointwise_same_length Rdiv), bind_Ok by solve_lengths.
  rewrite where_scalar_other, bind_Ok by solve_lengths.
  rewrite (pointwise_scalar_r torch.Rltb), bind_Ok.
  rewrite where_scalar_other, bind_Ok by solve_lengths.
  rewrite (pointwise_same_length Rplus), !bind_Ok by solve_lengths.
  rewrite (pointwise_same_length Rmult), bind_Ok by solve_lengths.
  eexists. split; [reflexivity|]. split; [solve_lengths|].
  intros i s pi gi Hs Hp Hgi.
  unfold_elementwise. lookup_elementwise.
  unfold torch.Rgtb, torch.Rltb.
  by destruct (Rlt_dec 0 s), (Rlt_dec s n0).
Qed.

Lemma Binomial_backward_scalar_count_witness :
  ∃ out : tensor,
    Binomial.backward (mkCtx (Some ([2; 0], [0.4; 0.5], [5]))) [1; 1]
    = Ok (None, out) ∧
    length out = 2%nat ∧
    ∀ (i : nat) (s pi gi : R),
      [2; 0] !! i = Some s → [0.4; 0.5] !! i = Some pi → [1; 1] !! i = Some gi →
      out !! i = Some (gi * (((if Rlt_dec 0 s then s / pi else 0)
                              + (if Rlt_dec s 5 then (5 - s) / (1 - pi) else 0))
                             / 2)).
Proof.
  apply (Binomial_backward_scalar_count _ [2; 0] [0.4; 0.5] [1; 1] 5);
    reflexivity.
Defined.

(** ** Categorical: the law of the index, forward followed by backward *)

Lemma lookup_cumsum_from (acc : R) (t : tensor) (k : nat) :
  (k < length t)%nat →
  torch.cumsum_from acc t !! k = Some (acc + torch.sum (take (S k) t)).
Proof.
  revert acc k. induction t as [|x t IH]; intros acc k Hk; simpl in Hk; [lia|].
  destruct k as [|k].
  - unfold torch.sum. simpl. f_equal. lra.
  - change (torch.cumsum_from (acc + x) t !! k
            = Some (acc + torch.sum (x :: take (S k) t))).
    rewrite IH by lia. unfold torch.sum. simpl. f_equal. lra.
Qed.

Lemma lookup_cumsum (t : tensor) (k : nat) :
  (k < length t)%nat → torch.cumsum t !! k = Some (torch.sum (take (S k) t)).
Proof.
  intros Hk. unfold torch.cumsum. rewrite lookup_cumsum_from by done.
  f_equal. lra.
Qed.

Lemma sum_take_S (t : tensor) (k : nat) (x : R) :
  t !! k = Some x → torch.sum (take (S k) t) = torch.sum (take k t) + x.
Proof.
  revert k. induction t as [|y t IH]; intros k Hk; [done|].
  destruct k as [|k]; simpl in Hk.
  - injection Hk as ->. unfold torch.sum. simpl. lra.
  - specialize (IH k Hk). unfold torch.sum in *. simpl in *. lra.
Qed.

(** The partial sums of non-negative entries do not decrease. *)
Lemma sum_take_mono (t : tensor) (j k : nat) :
  Forall (λ x, 0 <= x) t → (j ≤ k)%nat →
  torch.sum (take j t) <= torch.sum (take k t).
Proof.
  intros Hpos. revert j k.
  induction Hpos as [|x t Hx Hpos IH]; intros j k Hjk.
  - rewrite !take_nil. lra.
  - destruct j as [|j]; destruct k as [|k]; try lia.
    + simpl. lra.
    + specialize (IH 0%nat k ltac:(lia)).
      unfold torch.sum in *. simpl in *. lra.
    + specialize (IH j k ltac:(lia)). unfold torch.sum in *. simpl in *. lra.
Qed.

(** On non-negative [probs] the forward pass samples by inversion of the
    cumulative sums: the index is at most [k] exactly when the draw is at most
    the [k]-th cumulative sum. *)
Theorem Categorical_forward_distribution_function
    (gen : Generator) (ctx : FunctionCtx (tensor * Z)) (probs : tensor)
    (k : nat) (ck : R) :
  Forall (λ x, 0 <= x) probs →
  torch.cumsum probs !! k = Some ck →
  ∃ idx : nat,
    StochasticCategorical.forward gen ctx probs
    = (mkCtx (Some (probs, Z.of_nat idx)), INR idx) ∧
    ((idx ≤ k)%nat ↔ gen 0%nat <= ck).
Proof.
  intros Hpos Hck.
  exists (torch.searchsorted (torch.cumsum probs) (gen 0%nat)). split.
  { unfold StochasticCategorical.forward, save_for_backward.
    by rewrite INR_IZR_INZ. }
  pose proof (lookup_lt_Some _ _ _ Hck) as Hk.
  destruct (searchsorted_first (torch.cumsum probs) (gen 0%nat))
    as (_ & Hge & _).
  split.
  - intros Hidx.
    destruct (lookup_lt_is_Some_2 (torch.cumsum probs)
                (torch.searchsorted (torch.cumsum probs) (gen 0%nat)))
      as [c Hc]; [lia|].
    pose proof (Hge c Hc) as Hu.
    unfold torch.cumsum in Hk. rewrite length_cumsum_from in Hk.
    rewrite lookup_cumsum in Hc by lia. rewrite lookup_cumsum in Hck by lia.
    injection Hc as <-. injection Hck as <-.
    pose proof (sum_take_mono probs _ (S k) Hpos ltac:(apply le_n_S, Hidx)).
    lra.
  - intros Hu. by eapply searchsorted_le_position.
Qed.

Lemma Categorical_forward_distribution_function_witness :
  ∃ idx : nat,
    StochasticCategorical.forward (λ _, 0.35) fresh_ctx [0.2; 0.3; 0.5]
    = (mkCtx (Some ([0.2; 0.3; 0.5], Z.of_nat idx)), INR idx) ∧
    ((idx ≤ 1)%nat ↔ 0.35 <= 0 + 0.2 + 0.3).
Proof.
  apply (Categorical_forward_distribution_function
           (λ _, 0.35) fresh_ctx [0.2; 0.3; 0.5] 1 (0 + 0.2 + 0.3)).
  - repeat constructor; lra.
  - reflexivity.
Defined.

(** For a non-empty [probs] summing to 1 and a draw in [0,1), the backward
    pass on the context that the forward pass saved never raises.  At a
    sampled index other than 0 the entry [probs[idx]] it divides by is
    strictly positive, the mass [F_lower] below the index is smaller than the
    draw, and the gradient is [-g * F_lower / probs[idx]] at the index and 0
    elsewhere; at index 0 the gradient is 0 everywhere. *)
Theorem Categorical_forward_then_backward
    (gen : Generator) (ctx : FunctionCtx (tensor * Z)) (probs : tensor) (g : R) :
  probs ≠ [] →
  torch.sum probs = 1 →
  0 <= gen 0%nat < 1 →
  ∃ (ctx' : FunctionCtx (tensor * Z)) (idx : nat) (out : tensor),
    StochasticCategorical.forward gen ctx probs = (ctx', INR idx) ∧
    (idx < length probs)%nat ∧
    StochasticCategorical.backward ctx' g = Ok out ∧
    length out = length probs ∧
    (∀ j : nat, j ≠ idx → (j < length probs)%nat → out !! j = Some 0) ∧
    (idx = 0%nat → out !! idx = Some 0) ∧
    (idx ≠ 0%nat →
       ∃ pk : R,
         probs !! idx = Some pk ∧ 0 < pk ∧
         torch.sum (take idx probs) < gen 0%nat ∧
         out !! idx = Some (- g * torch.sum (take idx probs) / pk)).
Proof.
  intros Hne Hsum [Hu0 Hu1].
  set (idx := torch.searchsorted (torch.cumsum probs) (gen 0%nat)).
  destruct (searchsorted_first (torch.cumsum probs) (gen 0%nat))
    as (Hlt & Hge & _). fold idx in Hlt, Hge.
  assert (Hlen : (0 < length probs)%nat) by (destruct probs; simpl; [done | lia]).
  assert (Hidx : (idx < length probs)%nat).
  { assert (Hlast : torch.cumsum probs !! (length probs - 1)%nat = Some 1).
    { unfold torch.cumsum. rewrite cumsum_from_last by done. f_equal. lra. }
    pose proof (searchsorted_le_position _ (gen 0%nat) _ 1 Hlast ltac:(lra)).
    fold idx in H. lia. }
  assert (Hfwd : StochasticCategorical.forward gen ctx probs
                 = (mkCtx (Some (probs, Z.of_nat idx)), INR idx)).
  { unfold StochasticCategorical.forward, save_for_backward. fold idx.
    by rewrite INR_IZR_INZ. }
  destruct (lookup_lt_is_Some_2 probs idx Hidx) as [pk Hpk].
  destruct (decide (idx = 0%nat)) as [H0|H0].
  - exists (mkCtx (Some (probs, Z.of_nat idx))), idx,
      (replicate (length probs) 0).
    split; [done|]. split; [done|].
    split.
    { unfold StochasticCategorical.backward.
      rewrite (unpack_saved (mkCtx (Some (probs, Z.of_nat idx))) _ eq_refl),
        bind_Ok.
      rewrite decide_True by lia. reflexivity. }
    split; [apply length_replicate|].
    split; [intros; by apply lookup_replicate_2|].
    split; [intros; by apply lookup_replicate_2 | done].
  - eexists (mkCtx (Some (probs, Z.of_nat idx))), idx, _.
    split; [done|]. split; [done|].
    split.
    { by apply (Categorical_backward_writes_entry _ probs idx pk g). }
    split; [by rewrite length_insert, length_replicate|].
    split.
    { intros j Hj Hjlt. rewrite list_lookup_insert_ne by done.
      by apply lookup_replicate_2. }
    split; [done|]. intros _. exists pk. split; [done|].
    assert (Hbelow : torch.sum (take idx probs) < gen 0%nat).
    { destruct idx as [|j] eqn:Hj; [done|].
      apply (Hlt j); [lia|]. apply lookup_cumsum. lia. }
    assert (Hat : gen 0%nat <= torch.sum (take idx probs) + pk).
    { rewrite <- (sum_take_S probs idx pk Hpk).
      apply Hge. apply lookup_cumsum. lia. }
    split; [lra|]. split; [done|].
    rewrite list_lookup_insert_eq by (by rewrite length_replicate).
    f_equal. unfold Rdiv. ring.
Qed.

Lemma Categorical_forward_then_backward_witness :
  ∃ (ctx' : FunctionCtx (tensor * Z)) (idx : nat) (out : tensor),
    StochasticCategorical.forward (λ _, 0.6) fresh_ctx [0.2; 0.3; 0.5]
    = (ctx', INR idx) ∧
    (idx < 3)%nat ∧
    StochasticCategorical.backward ctx' 1 = Ok out ∧
    length out = 3%nat ∧
    (∀ j : nat, j ≠ idx → (j < 3)%nat → out !! j = Some 0) ∧
    (idx = 0%nat → out !! idx = Some 0) ∧
    (idx ≠ 0%nat →
       ∃ pk : R,
         [0.2; 0.3; 0.5] !! idx = Some pk ∧ 0 < pk ∧
         torch.sum (take idx [0.2; 0.3; 0.5]) < 0.6 ∧
         out !! idx = Some (- 1 * torch.sum (take idx [0.2; 0.3; 0.5]) / pk)).
Proof.
  apply (Categorical_forward_then_backward
           (λ _, 0.6) fresh_ctx [0.2; 0.3; 0.5] 1).
  - discriminate.
  - unfold torch.sum. simpl. lra.
  - lra.
Defined.

Lemma searchsorted_all_below (c : tensor) (v : R) :
  (∀ (j : nat) (x : R), c !! j = Some x → x < v) →
  torch.searchsorted c v = length c.
Proof.
  induction c as [|y c IH]; intros Hall; [done|].
  simpl. destruct (Rlt_dec y v) as [Hy|Hy].
  - f_equal. apply IH. intros j x Hx. by apply (Hall (S j)).
  - exfalso. apply Hy. by apply (Hall 0%nat).
Qed.

(** When the non-negative entries of a non-empty [probs] sum to less than
    the draw, the forward pass returns the length of [probs] as the index,
    and the backward pass on the context it saved raises [IndexError]. *)
Theorem Categorical_index_past_the_end
    (gen : Generator) (ctx : FunctionCtx (tensor * Z)) (probs : tensor) (g : R) :
  probs ≠ [] →
  Forall (λ x, 0 <= x) probs →
  torch.sum probs < gen 0%nat →
  StochasticCategorical.forward gen ctx probs
  = (mkCtx (Some (probs, Z.of_nat (length probs))), INR (length probs)) ∧
  StochasticCategorical.backward
    (mkCtx (Some (probs, Z.of_nat (length probs)))) g
  = Raise IndexError.
Proof.
  intros Hne Hpos Hsum.
  assert (Hlen : (0 < length probs)%nat) by (destruct probs; simpl; [done | lia]).
  split.
  - unfold StochasticCategorical.forward, save_for_backward.
    rewrite searchsorted_all_below.
    + unfold torch.cumsum. rewrite length_cumsum_from. by rewrite INR_IZR_INZ.
    + intros j x Hx. pose proof (lookup_lt_Some _ _ _ Hx) as Hj.
      unfold torch.cumsum in Hj. rewrite length_cumsum_from in Hj.
      rewrite lookup_cumsum in Hx by done. injection Hx as <-.
      pose proof (sum_take_mono probs (S j) (length probs) Hpos ltac:(lia)) as H.
      rewrite firstn_all in H. lra.
  - unfold StochasticCategorical.backward.
    rewrite (unpack_saved (mkCtx (Some (probs, Z.of_nat (length probs)))) _
               eq_refl), bind_Ok.
    rewrite decide_False by lia.
    unfold py.getitem, py.position.
    rewrite decide_False by lia. rewrite decide_False by lia. reflexivity.
Qed.

Lemma Categorical_index_past_the_end_witness :
  StochasticCategorical.forward (λ _, 0.9) fresh_ctx [0.25; 0.5]
  = (mkCtx (Some ([0.25; 0.5], Z.of_nat 2)), INR 2) ∧
  StochasticCategorical.backward (mkCtx (Some ([0.25; 0.5], Z.of_nat 2))) 1
  = Raise IndexError.
Proof.
  apply (Categorical_index_past_the_end (λ _, 0.9) fresh_ctx [0.25; 0.5] 1).
  - discriminate.
  - repeat constructor; lra.
  - unfold torch.sum. simpl. lra.
Defined.

(** ** An upstream gradient of the wrong shape *)



(** ** Binomial: the mean of the weight *)

Lemma binomial_absorption (n s : nat) :
  (s ≤ n)%nat → INR (S s) * C (S n) (S s) = INR (S n) * C n s.
Proof.
  intros Hs. unfold C. replace (S n - S s)%nat with (n - s)%nat by lia.
  rewrite !fact_simpl, !mult_INR.
  field. repeat split; try apply INR_fact_neq_0; apply not_0_INR; lia.
Qed.

Lemma Binomial_pmf_total (n : nat) (p : R) :
  sum_f_R0 (Binomial_pmf n p) n = 1.
Proof.
  unfold Binomial_pmf. rewrite <- binomial.
  replace (p + (1 - p)) with 1 by lra. apply pow1.
Qed.

Lemma Binomial_pmf_mean (n : nat) (p : R) :
  sum_f_R0 (λ s, Binomial_pmf n p s * INR s) n = INR n * p.
Proof.
  destruct n as [|n].
  - simpl. unfold Binomial_pmf. simpl. lra.
  - rewrite decomp_sum by lia. simpl pred.
    rewrite Rmult_0_r, Rplus_0_l.
    rewrite <- (Rmult_1_r (INR (S n) * p)), <- (Binomial_pmf_total n p).
    rewrite scal_sum. apply sum_eq. intros i Hi.
    unfold Binomial_pmf. replace (S n - S i)%nat with (n - i)%nat by lia.
    pose proof (binomial_absorption n i Hi) as Ha. simpl pow.
    transitivity (INR (S i) * C (S n) (S i) * (p * p ^ i * (1 - p) ^ (n - i)));
      [ring|].
    rewrite Ha. ring.
Qed.

(** The backward pass on tensors of a single element. *)
Lemma Binomial_backward_single (s p n g : R) :
  Binomial.backward (mkCtx (Some ([s], [p], [n]))) [g]
  = Ok (None, [g * (((if Rlt_dec 0 s then s / p else 0)
                     + (if Rlt_dec s n then (n - s) / (1 - p) else 0)) / 2)]).
Proof.
  destruct (Binomial_weights_same_shape [s] [p] [n] eq_refl eq_refl)
    as (ws & Hws & Hlen & Hpos).
  unfold Binomial.backward.
  rewrite (unpack_saved (mkCtx (Some ([s], [p], [n]))) _ eq_refl), bind_Ok.
  rewrite Hws, bind_Ok.
  specialize (Hpos 0%nat s p n eq_refl eq_refl eq_refl).
  destruct ws as [|w [|w' ws]]; try discriminate.
  simpl in Hpos. injection Hpos as ->. reflexivity.
Qed.

(** Over the distribution of the sample, the gradient that the Binomial
    backward pass returns for [p] averages to [n] times the upstream
    gradient, [n] being the derivative in [p] of the mean [n * p] of the
    sample: with [grad s] the gradient returned at sample [s], the sum of
    [grad s] weighted by the probability of [s] is [n * g]. *)
Theorem Binomial_backward_mean_weight (n : nat) (p g : R) :
  0 < p < 1 →
  ∃ grad : nat → R,
    (∀ s : nat, (s ≤ n)%nat →
       Binomial.backward (mkCtx (Some ([INR s], [p], [INR n]))) [g]
       = Ok (None, [grad s])) ∧
    sum_f_R0 (λ s, Binomial_pmf n p s * grad s) n = INR n * g.
Proof.
  intros Hp.
  exists (λ s, g * ((INR s / p + (INR n - INR s) / (1 - p)) / 2)). split.
  - intros s Hs. rewrite Binomial_backward_single. do 4 f_equal.
    pose proof (pos_INR s) as Hs0. apply le_INR in Hs.
    destruct (Rlt_dec 0 (INR s)) as [H0|H0];
      destruct (Rlt_dec (INR s) (INR n)) as [H1|H1].
    + reflexivity.
    + replace (INR s) with (INR n) by lra. unfold Rdiv. ring.
    + replace (INR s) with 0 by lra. unfold Rdiv. ring.
    + replace (INR s) with 0 by lra. replace (INR n) with 0 by lra.
      unfold Rdiv. ring.
  - rewrite (sum_eq _ (λ s, Binomial_pmf n p s * INR s
                            * (g * (/ p - / (1 - p)) / 2)
                            + Binomial_pmf n p s * (g * INR n / (1 - p) / 2))).
    + rewrite sum_plus, <- !scal_sum, Binomial_pmf_mean, Binomial_pmf_total.
      field. lra.
    + intros s _. field. lra.
Qed.

Lemma Binomial_backward_mean_weight_witness :
  ∃ grad : nat → R,
    (∀ s : nat, (s ≤ 5)%nat →
       Binomial.backward (mkCtx (Some ([INR s], [0.4], [INR 5]))) [1]
       = Ok (None, [grad s])) ∧
    sum_f_R0 (λ s, Binomial_pmf 5 0.4 s * grad s) 5 = INR 5 * 1.
Proof. apply (Binomial_backward_mean_weight 5 0.4 1). lra. Defined.
